(** * GCB sizing: the fault-current engine, the rating selection and the
      waveform sampler

    A shallow embedding of [utils/electricalCalculations.ts]
    ([calculateSystemSourceFault], [calculateGeneratorSourceFault],
    [generateWaveformData]) and of the [ratings] block of [App.tsx].

    Numbers.  A JavaScript [number] is read as the real number it stands
    for: [+ - * /], [Math.sqrt], [Math.exp], [Math.atan], [Math.cos],
    [Math.sin] and [Math.PI] become the operations of [R].  The embedding
    therefore describes the arithmetic the source writes down, free of the
    rounding of IEEE doubles, and it says nothing about runs that leave the
    finite numbers (a division by zero gives [Infinity] or [NaN] in the
    source, while [x / 0] is [0] in [R]).  Where a statement depends on the
    value of a quotient, its hypotheses keep the divisor away from zero;
    the other statements compare formulas and hold whatever the quotient
    is.  What is true of the reals only, and lost on doubles by more than
    rounding, is not stated: the DC percentage is shown not to grow with
    the parting time, and module [Double] shows on binary64 numbers that
    it need not fall. *)

From Stdlib Require Import Ascii String.
From Stdlib Require Floats.
From Stdlib Require Import Reals Lra Lia List Sorted ZArith Bool.
Import ListNotations.
Open Scope R_scope.

(** ** The pieces of the JavaScript library the source calls *)

Module JS.

(** [Math.pow(x, n)] for a natural exponent (the source only squares). *)
Definition Math_pow (x : R) (n : nat) : R := x ^ n.

(** [Math.ceil]. *)
Definition Math_ceil (x : R) : R := IZR (Zceil x).

(** [Math.max] of two numbers. *)
Definition Math_max (x y : R) : R := Rmax x y.

(** Comparisons as the booleans the source branches on. *)
Definition geb (x y : R) : bool := if Rle_dec y x then true else false.
Definition gtb (x y : R) : bool := if Rlt_dec y x then true else false.
Definition leb (x y : R) : bool := if Rle_dec x y then true else false.

(** [Number.prototype.toFixed(2)] on a magnitude [x >= 0]: from [10^21] on
    the number is printed as it is; below, the integer [n] for which
    [n / 100 - x] is closest to zero is chosen, the larger one on a tie. *)
Definition toFixed2_abs (x : R) : R :=
  if Rle_dec (10 ^ 21) x then x else IZR (Zfloor (x * 100 + / 2)) / 100.

(** [Number(x.toFixed(2))]: a negative [x] is printed as ["-"] followed by
    the digits of [-x]. *)
Definition Number_toFixed2 (x : R) : R :=
  if Rlt_dec x 0 then - toFixed2_abs (- x) else toFixed2_abs x.

(** [a || b] where [a] is a number or [undefined]: [undefined] and [0] are
    falsy. *)
Definition or_else (a : option R) (b : R) : R :=
  match a with
  | Some v => if Req_dec_T v 0 then b else v
  | None => b
  end.

End JS.

Import JS.

(** ** types.ts *)

Module GeneratorData.
Record t : Type := mk
  { mva : R;
    voltageKv : R;
    powerFactor : R;
    subtransientReactanceXd : R;
    xrRatio : R }.
End GeneratorData.

Module TransformerData.
Record t : Type := mk
  { mva : R;
    impedanceZ : R;
    xrRatio : R;
    primaryVoltageKv : R;
    secondaryVoltageKv : R }.
End TransformerData.

Module SystemData.
Record t : Type := mk
  { shortCircuitCapacityMva : R;
    xrRatio : R }.
End SystemData.

Inductive Source : Type := System | Generator.

Module CalculationResult.
Record t : Type := mk
  { source : Source;
    symmetricalCurrentkA : R;
    dcComponentPercent : R;
    peakCurrentkA : R;
    asymmetricalCurrentkA : R;
    topOilRise : option R;
    breakingCapacityRequired : R;
    timeConstantMs : R;
    currentZerosSkipped : bool }.
End CalculationResult.

(** ** calculateSystemSourceFault

    Every [const] of the function body is a definition over the function's
    parameters, in the order of the source. *)

Module SystemSource.
Section Body.
Variable gen : GeneratorData.t.
Variable gsu : TransformerData.t.
Variable sys : SystemData.t.
Variable contactPartingTimeMs : R.

Definition uBase : R := TransformerData.secondaryVoltageKv gsu.

Definition zSysOhms : R :=
  Math_pow uBase 2 / SystemData.shortCircuitCapacityMva sys.

Definition zGsuOhms : R :=
  (TransformerData.impedanceZ gsu / 100)
  * (Math_pow uBase 2 / TransformerData.mva gsu).

Definition thetaSys : R := atan (SystemData.xrRatio sys).
Definition rSys : R := zSysOhms * cos thetaSys.
Definition xSys : R := zSysOhms * sin thetaSys.

Definition thetaGsu : R := atan (TransformerData.xrRatio gsu).
Definition rGsu : R := zGsuOhms * cos thetaGsu.
Definition xGsu : R := zGsuOhms * sin thetaGsu.

Definition rTotal : R := rSys + rGsu.
Definition xTotal : R := xSys + xGsu.
Definition zTotal : R := sqrt (rTotal * rTotal + xTotal * xTotal).

Definition iSym : R := uBase / (sqrt 3 * zTotal).

Definition omega : R := 2 * PI * 60.
Definition tauMs : R := (xTotal / (omega * rTotal)) * 1000.

Definition dcPercent : R := 100 * exp (- contactPartingTimeMs / tauMs).

Definition iDcKiloAmps : R := sqrt 2 * iSym * (dcPercent / 100).
Definition iAsymBreaking : R :=
  sqrt (Math_pow iSym 2 + Math_pow iDcKiloAmps 2).

(** Computed by the source and never used afterwards. *)
Definition peakFactor : R := 1.02 + 0.98 * exp (- 3 / SystemData.xrRatio sys).
Definition iPeak : R := sqrt 2 * iSym * (1 + exp (- 10 / tauMs)).

Definition result : CalculationResult.t :=
  {| CalculationResult.source := System;
     CalculationResult.symmetricalCurrentkA := Number_toFixed2 iSym;
     CalculationResult.dcComponentPercent := Number_toFixed2 dcPercent;
     CalculationResult.peakCurrentkA := Number_toFixed2 iPeak;
     CalculationResult.asymmetricalCurrentkA := Number_toFixed2 iAsymBreaking;
     CalculationResult.topOilRise := None;
     CalculationResult.breakingCapacityRequired := Number_toFixed2 iAsymBreaking;
     CalculationResult.timeConstantMs := Number_toFixed2 tauMs;
     CalculationResult.currentZerosSkipped := false |}.

End Body.
End SystemSource.

Definition calculateSystemSourceFault
  (gen : GeneratorData.t) (gsu : TransformerData.t) (sys : SystemData.t)
  (contactPartingTimeMs : R) : CalculationResult.t :=
  SystemSource.result gsu sys contactPartingTimeMs.

(** ** calculateGeneratorSourceFault *)

Module GeneratorSource.
Section Body.
Variable gen : GeneratorData.t.
Variable contactPartingTimeMs : R.

Definition uBase : R := GeneratorData.voltageKv gen.
Definition sBase : R := GeneratorData.mva gen.
Definition zBase : R := Math_pow uBase 2 / sBase.

Definition xdDoublePrimeOhms : R :=
  (GeneratorData.subtransientReactanceXd gen / 100) * zBase.

Definition rGen : R := xdDoublePrimeOhms / GeneratorData.xrRatio gen.

Definition zGen : R :=
  sqrt (rGen * rGen + xdDoublePrimeOhms * xdDoublePrimeOhms).

Definition iSym : R := uBase / (sqrt 3 * zGen).

Definition omega : R := 2 * PI * 60.
Definition tauMs : R := (xdDoublePrimeOhms / (omega * rGen)) * 1000.

Definition dcPercent : R := 100 * exp (- contactPartingTimeMs / tauMs).
Definition iDcKiloAmps : R := sqrt 2 * iSym * (dcPercent / 100).
Definition iAsymBreaking : R :=
  sqrt (Math_pow iSym 2 + Math_pow iDcKiloAmps 2).

Definition iPeak : R := sqrt 2 * iSym * 2.

Definition currentZerosSkipped : bool := gtb dcPercent 100.

Definition result : CalculationResult.t :=
  {| CalculationResult.source := Generator;
     CalculationResult.symmetricalCurrentkA := Number_toFixed2 iSym;
     CalculationResult.dcComponentPercent := Number_toFixed2 dcPercent;
     CalculationResult.peakCurrentkA := Number_toFixed2 iPeak;
     CalculationResult.asymmetricalCurrentkA := Number_toFixed2 iAsymBreaking;
     CalculationResult.topOilRise := None;
     CalculationResult.breakingCapacityRequired := Number_toFixed2 iAsymBreaking;
     CalculationResult.timeConstantMs := Number_toFixed2 tauMs;
     CalculationResult.currentZerosSkipped := currentZerosSkipped |}.

End Body.
End GeneratorSource.

Definition calculateGeneratorSourceFault
  (gen : GeneratorData.t) (contactPartingTimeMs : R) : CalculationResult.t :=
  GeneratorSource.result gen contactPartingTimeMs.

(** ** generateWaveformData

    The [for] loop of the source, [for (let t = 0; t <= totalTime; t += 1)],
    runs on fuel: one unit per test of the loop condition.  [None] is a run
    that the fuel did not cover. *)

Module WaveformSample.
Record t : Type := mk
  { time : R;
    current : R;
    dc : R;
    envelopePos : R;
    envelopeNeg : R }.
End WaveformSample.

Module Waveform.
Section Body.
Variable iSym : R.
Variable tauMs : R.
Variable freq : R.

Definition omega : R := 2 * PI * freq.
Definition totalTime : R := 5 * (1000 / freq).

(** One pass through the loop body at time [t]: the object pushed. *)
Definition sample (t : R) : WaveformSample.t :=
  let tSec := t / 1000 in
  let ac := sqrt 2 * iSym * sin (omega * tSec) in
  let dc := sqrt 2 * iSym * exp (- t / tauMs) in
  let total := ac + dc in
  {| WaveformSample.time := t;
     WaveformSample.current := total;
     WaveformSample.dc := dc;
     WaveformSample.envelopePos := dc + sqrt 2 * iSym;
     WaveformSample.envelopeNeg := dc - sqrt 2 * iSym |}.

Fixpoint loop (fuel : nat) (t : R) (data : list WaveformSample.t)
  : option (list WaveformSample.t) :=
  match fuel with
  | O => None
  | S fuel' =>
      if leb t totalTime
      then loop fuel' (t + 1) (data ++ [sample t])
      else Some data
  end.

End Body.
End Waveform.

(** [freq] is the optional third parameter, [60] when it is left out. *)
Definition generateWaveformData
  (fuel : nat) (iSym tauMs : R) (freq : option R)
  : option (list WaveformSample.t) :=
  let freq := match freq with Some f => f | None => 60 end in
  Waveform.loop iSym tauMs freq fuel 0 [].

(** ** The [ratings] block of App.tsx

    The [useMemo] callback as a function of the values it closes over. *)

Module RatingRow.
Record t : Type := mk
  { calc : R;
    margin : R;
    selected : R }.
End RatingRow.

Module Ratings.
Record t : Type := mk
  { continuous : RatingRow.t;
    sym : RatingRow.t;
    asym : RatingRow.t;
    peak : RatingRow.t }.
End Ratings.

Definition stdBreakKA : list R :=
  [31.5; 40; 50; 63; 72; 80; 90; 100; 120; 140; 160; 190; 200].

Module RatingSelection.
Section Body.
Variable genData : GeneratorData.t.
Variable sysResult : CalculationResult.t.
Variable genResult : CalculationResult.t.
Variable marginPercent : R.

Definition continuousCurrentA : R :=
  (GeneratorData.mva genData * 1000)
  / (sqrt 3 * GeneratorData.voltageKv genData).
Definition maxSymKA : R :=
  Math_max (CalculationResult.symmetricalCurrentkA sysResult)
           (CalculationResult.symmetricalCurrentkA genResult).
Definition maxAsymKA : R :=
  Math_max (CalculationResult.asymmetricalCurrentkA sysResult)
           (CalculationResult.asymmetricalCurrentkA genResult).
Definition maxPeakKA : R :=
  Math_max (CalculationResult.peakCurrentkA sysResult)
           (CalculationResult.peakCurrentkA genResult).

Definition marginFactor : R := 1 + (marginPercent / 100).
Definition marginContinuousA : R := continuousCurrentA * marginFactor.
Definition marginSymKA : R := maxSymKA * marginFactor.
Definition marginAsymKA : R := maxAsymKA * marginFactor.
Definition marginPeakKA : R := maxPeakKA * marginFactor.

Definition selectedCurrentA : R := Math_ceil (marginContinuousA / 500) * 500.

(** [stdBreakKA.find(k => k >= marginSymKA) || stdBreakKA[stdBreakKA.length - 1]] *)
Definition selectedSymKA : R :=
  or_else (find (fun k => geb k marginSymKA) stdBreakKA)
          (nth (length stdBreakKA - 1) stdBreakKA 0).

Definition derivedPeakKA : R := selectedSymKA * 2.74.
Definition derivedAsymKA : R := selectedSymKA * 1.732.

Definition result : Ratings.t :=
  {| Ratings.continuous :=
       {| RatingRow.calc := continuousCurrentA;
          RatingRow.margin := marginContinuousA;
          RatingRow.selected := selectedCurrentA |};
     Ratings.sym :=
       {| RatingRow.calc := maxSymKA;
          RatingRow.margin := marginSymKA;
          RatingRow.selected := selectedSymKA |};
     Ratings.asym :=
       {| RatingRow.calc := maxAsymKA;
          RatingRow.margin := marginAsymKA;
          RatingRow.selected := derivedAsymKA |};
     Ratings.peak :=
       {| RatingRow.calc := maxPeakKA;
          RatingRow.margin := marginPeakKA;
          RatingRow.selected := derivedPeakKA |} |}.

End Body.
End RatingSelection.

Definition ratings
  (genData : GeneratorData.t) (sysResult genResult : CalculationResult.t)
  (marginPercent : R) : Ratings.t :=
  RatingSelection.result genData sysResult genResult marginPercent.

(** The values the form of App.tsx starts from. *)
Definition genData0 : GeneratorData.t :=
  GeneratorData.mk 100 13.8 0.85 15 30.
Definition gsuData0 : TransformerData.t :=
  TransformerData.mk 120 10 40 154 13.8.
Definition sysData0 : SystemData.t := SystemData.mk 10000 15.
Definition partingTime0 : R := 50.
Definition marginPercent0 : R := 10.

(** The same generator and transformer with the sign of the voltage
    flipped.  The form's number fields take any number, and a stored
    project is loaded as it is. *)
Definition genDataNeg : GeneratorData.t :=
  GeneratorData.mk 100 (- 13.8) 0.85 15 30.
Definition gsuDataNeg : TransformerData.t :=
  TransformerData.mk 120 10 40 154 (- 13.8).

(** ** The generator rows of the breakdown panel of App.tsx

    The class of the DC cell,
    [genResult.dcComponentPercent > 100 ? "text-red-600 font-bold" : ""],
    and the condition of the warning below it,
    [genResult.currentZerosSkipped && ...]. *)

Definition dcCellClassName (genResult : CalculationResult.t) : string :=
  if gtb (CalculationResult.dcComponentPercent genResult) 100
  then "text-red-600 font-bold"%string
  else ""%string.

Definition delayedZerosWarningShown (genResult : CalculationResult.t) : bool :=
  CalculationResult.currentZerosSkipped genResult.

(** ** Strings of App.tsx

    A JavaScript string is its sequence of UTF-16 code units. *)

Module JSString.

Definition t : Type := list N.

(** A literal of the source, all of whose characters are ASCII. *)
Definition lit (s : string) : t := map N_of_ascii (list_ascii_of_string s).

Definition eq_dec : forall a b : t, {a = b} + {a <> b} := list_eq_dec N.eq_dec.

(** [s.startsWith(p)] *)
Fixpoint startsWith (s p : t) : bool :=
  match p, s with
  | [], _ => true
  | _ :: _, [] => false
  | c :: p', d :: s' => (c =? d)%N && startsWith s' p'
  end.

(** [s.replace(pat, rep)] with a string pattern: the first occurrence of
    [pat] gives way to [rep] (no [$] in the replacements of the source). *)
Fixpoint replace (pat rep s : t) : t :=
  match s with
  | [] => if startsWith [] pat then rep else []
  | c :: s' =>
      if startsWith s pat then rep ++ skipn (length pat) s
      else c :: replace pat rep s'
  end.

(** White space and line terminators, the code units [trim] strips. *)
Definition isWhiteSpace (c : N) : bool :=
  existsb (N.eqb c)
    [9; 10; 11; 12; 13; 32; 160; 5760; 8232; 8233; 8239; 8287; 12288; 65279]%N
  || ((8192 <=? c)%N && (c <=? 8202)%N).

Fixpoint trimStart (s : t) : t :=
  match s with
  | [] => []
  | c :: s' => if isWhiteSpace c then trimStart s' else s
  end.

(** [s.trim()] *)
Definition trim (s : t) : t := rev (trimStart (rev (trimStart s))).

(** [a < b] on strings: by code units, a proper prefix first. *)
Fixpoint ltb (a b : t) : bool :=
  match a, b with
  | _, [] => false
  | [], _ :: _ => true
  | x :: a', y :: b' =>
      if (x <? y)%N then true
      else if (y <? x)%N then false
      else ltb a' b'
  end.

Fixpoint insert (x : t) (l : list t) : list t :=
  match l with
  | [] => [x]
  | y :: l' => if ltb x y then x :: l else y :: insert x l'
  end.

(** [keys.sort()] with the default comparison, on an array of strings. *)
Fixpoint sort (l : list t) : list t :=
  match l with
  | [] => []
  | x :: l' => insert x (sort l')
  end.

Definition isAsciiAlnum (c : N) : bool :=
  ((48 <=? c)%N && (c <=? 57)%N)
  || ((65 <=? c)%N && (c <=? 90)%N)
  || ((97 <=? c)%N && (c <=? 122)%N).

(** [s.replace(/[^a-z0-9]/gi, '_')]: without the [u] flag the pattern is
    tried on every code unit, and case folding pairs no code unit from 128
    on with an ASCII one. *)
Definition replaceNonAlnum (s : t) : t :=
  map (fun c => if isAsciiAlnum c then c else 95%N) s.

(** [s.toLowerCase()] on the ASCII letters; the strings it is applied to in
    the source hold ASCII letters, digits and underscores only. *)
Definition toLowerCase (s : t) : t :=
  map (fun c => if (65 <=? c)%N && (c <=? 90)%N then (c + 32)%N else c) s.

End JSString.

(** The code units of a lower-case ASCII letter, a digit or an underscore. *)
Definition isCleanCodeUnit (c : N) : bool :=
  ((48 <=? c)%N && (c <=? 57)%N)
  || ((97 <=? c)%N && (c <=? 122)%N)
  || (c =? 95)%N.

(** The order [sort] leaves its array in: [a] is not after [b]. *)
Definition str_le (a b : JSString.t) : Prop := JSString.ltb b a = false.

(** ** Saving and loading projects (App.tsx) *)

Module UatData.
Record t : Type := mk
  { mva : R;
    impedanceZ : R;
    xrRatio : R;
    secondaryVoltageKv : R }.
End UatData.

(** A saved project as [JSON.parse] returns it: a save of an earlier
    version of the form has no [uatData]. *)
Module SavedProject.
Record t : Type := mk
  { genData : GeneratorData.t;
    gsuData : TransformerData.t;
    uatData : option UatData.t;
    sysData : SystemData.t;
    partingTime : R;
    marginPercent : R;
    timestamp : R }.
End SavedProject.

(** A string held by [localStorage], read as [handleLoadProject] reads it:
    the empty string, a text [JSON.parse] rejects, or the text of a saved
    project, which [JSON.parse] turns back into the project that
    [JSON.stringify] was given.  Texts that [JSON.parse] accepts and that
    are no saved project are left out. *)
Inductive StoredText : Type :=
| EmptyText
| NotJson
| JsonProject (p : SavedProject.t).

(** [localStorage]: its keys in the order of [localStorage.key(i)]. *)
Module LocalStorage.

Definition t : Type := list (JSString.t * StoredText).

Fixpoint getItem (ls : t) (k : JSString.t) : option StoredText :=
  match ls with
  | [] => None
  | (k', v) :: ls' => if JSString.eq_dec k k' then Some v else getItem ls' k
  end.

Fixpoint setItem (ls : t) (k : JSString.t) (v : StoredText) : t :=
  match ls with
  | [] => [(k, v)]
  | (k', v') :: ls' =>
      if JSString.eq_dec k k' then (k, v) :: ls'
      else (k', v') :: setItem ls' k v
  end.

Definition keys (ls : t) : list JSString.t := map fst ls.

End LocalStorage.

Module App.

Record State : Type := mkState
  { projectName : JSString.t;
    savedProjects : list JSString.t;
    genData : GeneratorData.t;
    gsuData : TransformerData.t;
    uatData : UatData.t;
    sysData : SystemData.t;
    partingTime : R;
    marginPercent : R;
    aiAssessment : JSString.t;
    loadingAi : bool;
    isExporting : bool }.

Inductive Alert : Type :=
| PleaseEnterName
| SavedSuccessfully (name : JSString.t)
| FailedToSave
| FailedToLoad.

Definition keyPrefix : JSString.t := JSString.lit "gcb_proj_".

(** The loop of [updateSavedProjectsList] over the keys, then the sort:
    the new value of [savedProjects]. *)
Fixpoint collectKeys (ks : list JSString.t) (keys : list JSString.t)
  : list JSString.t :=
  match ks with
  | [] => keys
  | key :: ks' =>
      if match key with [] => false | _ :: _ => true end
         && JSString.startsWith key keyPrefix
      then collectKeys ks' (keys ++ [JSString.replace keyPrefix [] key])
      else collectKeys ks' keys
  end.

Definition updateSavedProjectsList (ls : LocalStorage.t) : list JSString.t :=
  JSString.sort (collectKeys (LocalStorage.keys ls) []).

Definition setSavedProjects (st : State) (l : list JSString.t) : State :=
  mkState (projectName st) l (genData st) (gsuData st) (uatData st)
    (sysData st) (partingTime st) (marginPercent st) (aiAssessment st)
    (loadingAi st) (isExporting st).

(** [handleSaveProject]. [now] is [Date.now()]; [setItemThrows] says whether
    [localStorage.setItem] throws (the storage is full). *)
Definition handleSaveProject
  (now : R) (setItemThrows : bool) (st : State) (ls : LocalStorage.t)
  : State * LocalStorage.t * list Alert :=
  match JSString.trim (projectName st) with
  | [] => (st, ls, [PleaseEnterName])
  | _ :: _ =>
      let dataToSave :=
        SavedProject.mk (genData st) (gsuData st) (Some (uatData st))
          (sysData st) (partingTime st) (marginPercent st) now in
      if setItemThrows then (st, ls, [FailedToSave])
      else
        let ls' := LocalStorage.setItem ls (keyPrefix ++ projectName st)
                     (JsonProject dataToSave) in
        (setSavedProjects st (updateSavedProjectsList ls'), ls',
         [SavedSuccessfully (projectName st)])
  end.

(** [handleLoadProject] with [e.target.value = selectedName]. *)
Definition handleLoadProject
  (selectedName : JSString.t) (st : State) (ls : LocalStorage.t)
  : State * list Alert :=
  match selectedName with
  | [] => (st, [])
  | _ :: _ =>
      match LocalStorage.getItem ls (keyPrefix ++ selectedName) with
      | None | Some EmptyText => (st, [])
      | Some NotJson => (st, [FailedToLoad])
      | Some (JsonProject data) =>
          (mkState selectedName (savedProjects st)
             (SavedProject.genData data) (SavedProject.gsuData data)
             (match SavedProject.uatData data with
              | Some u => u
              | None => uatData st
              end)
             (SavedProject.sysData data) (SavedProject.partingTime data)
             (SavedProject.marginPercent data) [] (loadingAi st)
             (isExporting st),
           [])
      end
  end.

(** The name of the exported file in [handleExportPdf]. *)
Definition cleanProjectName (projectName : JSString.t) : JSString.t :=
  JSString.toLowerCase (JSString.replaceNonAlnum projectName).

Definition reportFileName (projectName : JSString.t) : JSString.t :=
  cleanProjectName projectName ++ JSString.lit "_GCB_Sizing_Report.pdf".

End App.

(** The state the form starts in, and a storage with two saved projects
    beside a key of another application. *)
Definition uatData0 : UatData.t := UatData.mk 10 8 15 4.16.

Definition state0 : App.State :=
  App.mkState (JSString.lit "GCB Sizing Project - 001") []
    genData0 gsuData0 uatData0 sysData0 partingTime0 marginPercent0
    [] false false.

Definition storage0 : LocalStorage.t :=
  [(JSString.lit "gcb_proj_Unit 2", NotJson);
   (JSString.lit "theme", EmptyText);
   (JSString.lit "gcb_proj_Unit 1",
    JsonProject (SavedProject.mk genData0 gsuData0 None sysData0 40 5 0))].

(** ** The pages of the exported report ([handleExportPdf])

    A document is its pages, each the images placed on it at their [y]
    offsets; every image is placed at [x = 0] with the page width and the
    height [iHeight].  The source first lays out a document [pdf] that it
    never saves, then the document [pdf2] that it saves; both loops run on
    fuel. *)

Module PdfLayout.
Section Body.
Variable pWidth : R.
Variable pHeight : R.
Variable imgWidth : R.
Variable imgHeight : R.

Definition iHeight : R := (imgHeight * pWidth) / imgWidth.

(** The first document: margin 0, so its content is [pWidth] wide and
    [iHeight] high. *)
Fixpoint loop1 (fuel : nat) (heightLeft : R) (pdf : list (list R))
  : option (list (list R)) :=
  match fuel with
  | O => None
  | S fuel' =>
      if gtb heightLeft 0
      then
        let position := heightLeft - iHeight in
        loop1 fuel' (heightLeft - pHeight)
          (pdf ++ [[position - heightLeft - pHeight + iHeight;
                    position - (iHeight - heightLeft) - pHeight]])
      else Some pdf
  end.

(** The saved document. *)
Fixpoint loop2 (fuel : nat) (hLeft : R) (pdf2 : list (list R))
  : option (list (list R)) :=
  match fuel with
  | O => None
  | S fuel' =>
      if geb hLeft 0
      then
        let pos := hLeft - iHeight in
        loop2 fuel' (hLeft - pHeight) (pdf2 ++ [[pos]])
      else Some pdf2
  end.

Definition savedPages (fuel : nat) : option (list (list R)) :=
  match loop1 fuel (iHeight - pHeight) [[0]] with
  | None => None
  | Some _ => loop2 fuel (iHeight - pHeight) [[0]]
  end.

End Body.
End PdfLayout.

(** ** The DC percentage in binary64

    Lines 108 and 161 of the source,
    [100 * Math.exp(-contactPartingTimeMs / tauMs)], on IEEE doubles: the
    negation, the division and the product are the binary64 operations;
    [Math.exp] is given where ECMAScript fixes its value ([NaN] at [NaN],
    [1] at [+0] and [-0], [+Infinity] at [+Infinity], [+0] at [-Infinity])
    and left open ([None]) where the language only asks for an
    approximation. *)

Module Double.
Import PrimFloat.
#[local] Open Scope float_scope.

Definition Math_exp (x : float) : option float :=
  if is_nan x then Some nan
  else if is_zero x then Some 1
  else if x =? infinity then Some infinity
  else if x =? neg_infinity then Some 0
  else None.

Definition dcPercent (contactPartingTimeMs tauMs : float) : option float :=
  match Math_exp (- contactPartingTimeMs / tauMs) with
  | Some e => Some (100 * e)
  | None => None
  end.

(** The numbers [0], [5e-324] (the least positive double), [80] and [100]. *)
Definition zero : float := 0.
Definition least_positive : float := 0x1p-1074.
Definition eighty : float := 80.
Definition hundred : float := 100.

End Double.

(** ** The fault solver as the specification words it

    The second side of the comparison with the two source functions: steps
    1 to 5 of the solver as the specification gives them, over a resistance
    [R_ohm], a reactance [X_ohm], a base voltage and a contact-parting time,
    at the nominal 60 Hz.  Nothing here is rounded; [round2] is the
    rounding to two decimals applied when the result is built. *)

Module SolveFault.
Section Steps.
Variable R_ohm : R.
Variable X_ohm : R.
Variable V_base_kV : R.
Variable t_parting_ms : R.

Definition Z_mag : R := sqrt (R_ohm ^ 2 + X_ohm ^ 2).
Definition I_sym : R := V_base_kV / (sqrt 3 * Z_mag).
Definition omega : R := 2 * PI * 60.
Definition tau_ms : R := (X_ohm / (omega * R_ohm)) * 1000.
Definition DC_percent : R := 100 * exp (- t_parting_ms / tau_ms).
Definition I_dc : R := sqrt 2 * I_sym * (DC_percent / 100).
Definition I_asym : R := sqrt (I_sym ^ 2 + I_dc ^ 2).

End Steps.


(** "Rounded to two decimal places", in the specification's words and
    without reference to the code: [y] is a whole number of hundredths, and
    no whole number of hundredths is nearer to [x]. *)
Definition rounded_to_two_decimals (x y : R) : Prop :=
  (exists n : Z, y = IZR n / 100)
  /\ (forall m : Z, Rabs (y - x) <= Rabs (IZR m / 100 - x)).

End SolveFault.

(** * Properties *)

(** ** Rounding to two decimals *)

Section Rounding.

Lemma toFixed2_abs_small (x : R) :
  x < 10 ^ 21 -> toFixed2_abs x = IZR (Zfloor (x * 100 + / 2)) / 100.
Proof.
  intros Hx. unfold toFixed2_abs.
  destruct (Rle_dec (10 ^ 21) x) as [Hbig | _]; [lra | reflexivity].
Qed.

(** The digits [toFixed] chooses are those of a nearest hundredth, and of
    the larger one when two are equally near. *)
Lemma toFixed2_abs_nearest (x : R) (m : Z) :
  x < 10 ^ 21 ->
  Rabs (toFixed2_abs x - x) <= Rabs (IZR m / 100 - x)
  /\ (Rabs (toFixed2_abs x - x) = Rabs (IZR m / 100 - x) ->
      IZR m / 100 <= toFixed2_abs x).
Proof.
  intros Hx. rewrite (toFixed2_abs_small x Hx).
  set (n := Zfloor (x * 100 + / 2)).
  destruct (Zfloor_bound (x * 100 + / 2)) as [Hlo Hhi]. fold n in Hlo, Hhi.
  assert (Hn : Rabs (IZR n / 100 - x) <= / 200)
    by (apply Rabs_le; split; lra).
  destruct (Z_lt_le_dec n m) as [Hm | Hm].
  - assert (IZR n + 1 <= IZR m)
      by (rewrite <- plus_IZR; apply IZR_le; lia).
    assert (Hge : / 200 <= IZR m / 100 - x) by lra.
    rewrite (Rabs_pos_eq (IZR m / 100 - x)) by lra.
    split; [lra |].
    intros Heq. exfalso.
    assert (Hx' : Rabs (IZR n / 100 - x) = / 200) by lra.
    unfold Rabs in Hx'. destruct (Rcase_abs (IZR n / 100 - x)); lra.
  - assert (Hle : IZR m <= IZR n) by (apply IZR_le; lia).
    split; [| intros _; lra].
    destruct (Z.eq_dec m n) as [-> | Hne]; [apply Rle_refl |].
    assert (IZR m + 1 <= IZR n)
      by (rewrite <- plus_IZR; apply IZR_le; lia).
    rewrite (Rabs_left (IZR m / 100 - x)) by lra.
    lra.
Qed.

Lemma toFixed2_abs_nonneg (x : R) : 0 <= x -> 0 <= toFixed2_abs x.
Proof.
  intros Hx. unfold toFixed2_abs.
  destruct (Rle_dec (10 ^ 21) x) as [_ | _]; [exact Hx |].
  assert (Hz : (0 <= Zfloor (x * 100 + / 2))%Z)
    by (apply Zfloor_lub; simpl; lra).
  apply IZR_le in Hz. lra.
Qed.

Lemma toFixed2_abs_mono (x y : R) :
  x <= y -> toFixed2_abs x <= toFixed2_abs y.
Proof.
  intros Hxy. unfold toFixed2_abs.
  destruct (Rle_dec (10 ^ 21) x) as [Hx | Hx];
    destruct (Rle_dec (10 ^ 21) y) as [Hy | Hy]; try lra.
  - destruct (Zfloor_bound (x * 100 + / 2)) as [Hlo _].
    assert (Hz : (Zfloor (x * 100 + / 2) < 100000000000000000000000 + 1)%Z)
      by (apply lt_IZR; rewrite plus_IZR; lra).
    assert (Hz' : IZR (Zfloor (x * 100 + / 2)) <= 100000000000000000000000)
      by (apply IZR_le; lia).
    lra.
  - assert (Hz : (Zfloor (x * 100 + / 2) <= Zfloor (y * 100 + / 2))%Z)
      by (apply Zfloor_le; lra).
    apply IZR_le in Hz. lra.
Qed.

Lemma Number_toFixed2_nonneg (x : R) : 0 <= x -> 0 <= Number_toFixed2 x.
Proof.
  intros Hx. unfold Number_toFixed2.
  destruct (Rlt_dec x 0) as [Hneg | _]; [lra |].
  now apply toFixed2_abs_nonneg.
Qed.

Lemma Number_toFixed2_nonpos (x : R) : x <= 0 -> Number_toFixed2 x <= 0.
Proof.
  intros Hx. unfold Number_toFixed2.
  destruct (Rlt_dec x 0) as [Hneg | Hpos].
  - assert (0 <= toFixed2_abs (- x)) by (apply toFixed2_abs_nonneg; lra).
    lra.
  - replace x with 0 by lra. rewrite toFixed2_abs_small by lra.
    replace (0 * 100 + / 2) with (/ 2) by lra.
    rewrite (Zfloor_eq 0 (/ 2)) by lra. lra.
Qed.

Lemma Number_toFixed2_mono (x y : R) :
  x <= y -> Number_toFixed2 x <= Number_toFixed2 y.
Proof.
  intros Hxy.
  destruct (Rlt_dec y 0) as [Hy | Hy].
  - unfold Number_toFixed2.
    destruct (Rlt_dec x 0) as [_ | Hx]; [| lra].
    destruct (Rlt_dec y 0) as [_ | Hy']; [| lra].
    apply Ropp_le_contravar, toFixed2_abs_mono. lra.
  - destruct (Rlt_dec x 0) as [Hx | Hx].
    + apply Rle_trans with 0;
        [apply Number_toFixed2_nonpos | apply Number_toFixed2_nonneg]; lra.
    + unfold Number_toFixed2.
      destruct (Rlt_dec x 0) as [Hx' | _]; [lra |].
      destruct (Rlt_dec y 0) as [Hy' | _]; [lra |].
      now apply toFixed2_abs_mono.
Qed.

(** Reading off the two decimals of a number from a bracket around it. *)
Lemma Number_toFixed2_eval (x : R) (n : Z) :
  0 <= x < 10 ^ 21 ->
  IZR n - / 2 <= x * 100 < IZR n + / 2 ->
  Number_toFixed2 x = IZR n / 100.
Proof.
  intros [Hx0 Hx1] [Hlo Hhi]. unfold Number_toFixed2.
  destruct (Rlt_dec x 0) as [Hneg | _]; [lra |].
  rewrite toFixed2_abs_small by assumption.
  rewrite (Zfloor_eq n) by lra. reflexivity.
Qed.

Lemma Number_toFixed2_eval_neg (x : R) (n : Z) :
  - 10 ^ 21 < x < 0 ->
  IZR n - / 2 <= - x * 100 < IZR n + / 2 ->
  Number_toFixed2 x = - (IZR n / 100).
Proof.
  intros [Hx0 Hx1] [Hlo Hhi]. unfold Number_toFixed2.
  destruct (Rlt_dec x 0) as [_ | Hpos]; [| lra].
  rewrite toFixed2_abs_small by lra.
  rewrite (Zfloor_eq n) by lra. reflexivity.
Qed.

(** Below [10^21] in magnitude, what [Number(x.toFixed(2))] returns is [x]
    rounded to two decimal places. *)
Lemma Number_toFixed2_rounded (x : R) :
  Rabs x < 10 ^ 21 ->
  SolveFault.rounded_to_two_decimals x (Number_toFixed2 x).
Proof.
  intros Hx. apply Rabs_def2 in Hx as [Hhi Hlo].
  unfold SolveFault.rounded_to_two_decimals, Number_toFixed2.
  destruct (Rlt_dec x 0) as [Hneg | Hpos].
  - assert (Hs : - x < 10 ^ 21) by lra.
    split.
    + exists (- Zfloor (- x * 100 + / 2))%Z.
      rewrite (toFixed2_abs_small _ Hs), opp_IZR. lra.
    + intros m.
      destruct (toFixed2_abs_nearest (- x) (- m) Hs) as [Hnear _].
      replace (- toFixed2_abs (- x) - x) with (- (toFixed2_abs (- x) - - x))
        by ring.
      replace (IZR m / 100 - x) with (- (IZR (- m) / 100 - - x))
        by (rewrite opp_IZR; lra).
      now rewrite !Rabs_Ropp.
  - split.
    + exists (Zfloor (x * 100 + / 2)). now apply toFixed2_abs_small.
    + intros m. now apply toFixed2_abs_nearest.
Qed.

End Rounding.

(** ** Signs of the impedance split [R = |Z| cos (atan (X/R))],
       [X = |Z| sin (atan (X/R))] *)

Section Angles.

Lemma cos_atan_pos (x : R) : 0 < cos (atan x).
Proof.
  destruct (atan_bound x) as [Hlo Hhi]. apply cos_gt_0; lra.
Qed.

Lemma sin_atan_pos (x : R) : 0 < x -> 0 < sin (atan x).
Proof.
  intros Hx. destruct (atan_bound x) as [_ Hhi].
  assert (H0 : 0 < atan x)
    by (rewrite <- atan_0; now apply atan_increasing).
  apply sin_gt_0; [assumption |]. pose proof PI_RGT_0. lra.
Qed.

Lemma cos_atan_le_1 (x : R) : cos (atan x) <= 1.
Proof. destruct (COS_bound (atan x)); assumption. Qed.

Lemma sin_atan_le_1 (x : R) : sin (atan x) <= 1.
Proof. destruct (SIN_bound (atan x)); assumption. Qed.

End Angles.

(** ** The solver's formulas *)

Section Formulas.

Lemma sum_squares_pow (a b : R) : a * a + b * b = a ^ 2 + b ^ 2.
Proof. ring. Qed.

Lemma sys_zTotal_spec (gsu : TransformerData.t) (sys : SystemData.t) :
  SystemSource.zTotal gsu sys
  = SolveFault.Z_mag (SystemSource.rTotal gsu sys) (SystemSource.xTotal gsu sys).
Proof.
  unfold SystemSource.zTotal, SolveFault.Z_mag. now rewrite sum_squares_pow.
Qed.

Lemma sys_iSym_spec (gsu : TransformerData.t) (sys : SystemData.t) :
  SystemSource.iSym gsu sys
  = SolveFault.I_sym (SystemSource.rTotal gsu sys) (SystemSource.xTotal gsu sys)
      (SystemSource.uBase gsu).
Proof.
  unfold SystemSource.iSym, SolveFault.I_sym. now rewrite sys_zTotal_spec.
Qed.


Lemma sys_iDc_spec (gsu : TransformerData.t) (sys : SystemData.t) (t : R) :
  SystemSource.iDcKiloAmps gsu sys t
  = SolveFault.I_dc (SystemSource.rTotal gsu sys) (SystemSource.xTotal gsu sys)
      (SystemSource.uBase gsu) t.
Proof.
  unfold SystemSource.iDcKiloAmps, SolveFault.I_dc. now rewrite sys_iSym_spec.
Qed.

Lemma sys_iAsym_spec (gsu : TransformerData.t) (sys : SystemData.t) (t : R) :
  SystemSource.iAsymBreaking gsu sys t
  = SolveFault.I_asym (SystemSource.rTotal gsu sys)
      (SystemSource.xTotal gsu sys) (SystemSource.uBase gsu) t.
Proof.
  unfold SystemSource.iAsymBreaking, SolveFault.I_asym, Math_pow.
  now rewrite sys_iSym_spec, sys_iDc_spec.
Qed.

Lemma gen_zGen_spec (gen : GeneratorData.t) :
  GeneratorSource.zGen gen
  = SolveFault.Z_mag (GeneratorSource.rGen gen)
      (GeneratorSource.xdDoublePrimeOhms gen).
Proof.
  unfold GeneratorSource.zGen, SolveFault.Z_mag. now rewrite sum_squares_pow.
Qed.

Lemma gen_iSym_spec (gen : GeneratorData.t) :
  GeneratorSource.iSym gen
  = SolveFault.I_sym (GeneratorSource.rGen gen)
      (GeneratorSource.xdDoublePrimeOhms gen) (GeneratorSource.uBase gen).
Proof.
  unfold GeneratorSource.iSym, SolveFault.I_sym. now rewrite gen_zGen_spec.
Qed.

Lemma gen_tauMs_spec (gen : GeneratorData.t) :
  GeneratorSource.tauMs gen
  = SolveFault.tau_ms (GeneratorSource.rGen gen)
      (GeneratorSource.xdDoublePrimeOhms gen).
Proof. reflexivity. Qed.

Lemma gen_iDc_spec (gen : GeneratorData.t) (t : R) :
  GeneratorSource.iDcKiloAmps gen t
  = SolveFault.I_dc (GeneratorSource.rGen gen)
      (GeneratorSource.xdDoublePrimeOhms gen) (GeneratorSource.uBase gen) t.
Proof.
  unfold GeneratorSource.iDcKiloAmps, SolveFault.I_dc. now rewrite gen_iSym_spec.
Qed.

Lemma gen_iAsym_spec (gen : GeneratorData.t) (t : R) :
  GeneratorSource.iAsymBreaking gen t
  = SolveFault.I_asym (GeneratorSource.rGen gen)
      (GeneratorSource.xdDoublePrimeOhms gen) (GeneratorSource.uBase gen) t.
Proof.
  unfold GeneratorSource.iAsymBreaking, SolveFault.I_asym, Math_pow.
  now rewrite gen_iSym_spec, gen_iDc_spec.
Qed.

(** C1. Both source functions compute [|Z|], [I_sym], [tau_ms], [DC%],
    [I_dc] and [I_asym] by the solver's formulas on their total resistance,
    reactance and base voltage, with [omega = 2 * PI * 60]; and every
    magnitude of the returned result (below [10^21], from where [toFixed]
    prints a number as it is) is the unrounded value of its formula rounded
    to two decimal places: a whole number of hundredths, none nearer to
    that value.  The rounding is that of the result being built; the
    formulas are composed without any. *)
Theorem fault_solver_formulas
  (gen : GeneratorData.t) (gsu : TransformerData.t) (sys : SystemData.t)
  (t : R) :
  let Rs := SystemSource.rTotal gsu sys in
  let Xs := SystemSource.xTotal gsu sys in
  let Vs := SystemSource.uBase gsu in
  let Rg := GeneratorSource.rGen gen in
  let Xg := GeneratorSource.xdDoublePrimeOhms gen in
  let Vg := GeneratorSource.uBase gen in
  let rs := calculateSystemSourceFault gen gsu sys t in
  let rg := calculateGeneratorSourceFault gen t in
  let rounds := fun v y : R =>
    Rabs v < 10 ^ 21 -> SolveFault.rounded_to_two_decimals v y in
  (SystemSource.zTotal gsu sys = SolveFault.Z_mag Rs Xs
   /\ SystemSource.iSym gsu sys = SolveFault.I_sym Rs Xs Vs
   /\ SystemSource.omega = 2 * PI * 60
   /\ SystemSource.tauMs gsu sys = SolveFault.tau_ms Rs Xs
   /\ SystemSource.dcPercent gsu sys t = SolveFault.DC_percent Rs Xs t
   /\ SystemSource.iDcKiloAmps gsu sys t = SolveFault.I_dc Rs Xs Vs t
   /\ SystemSource.iAsymBreaking gsu sys t = SolveFault.I_asym Rs Xs Vs t)
  /\ (rounds (SolveFault.I_sym Rs Xs Vs)
        (CalculationResult.symmetricalCurrentkA rs)
      /\ rounds (SolveFault.DC_percent Rs Xs t)
           (CalculationResult.dcComponentPercent rs)
      /\ rounds (SolveFault.I_asym Rs Xs Vs t)
           (CalculationResult.asymmetricalCurrentkA rs)
      /\ rounds (SolveFault.I_asym Rs Xs Vs t)
           (CalculationResult.breakingCapacityRequired rs)
      /\ rounds (SolveFault.tau_ms Rs Xs)
           (CalculationResult.timeConstantMs rs))
  /\ (GeneratorSource.zGen gen = SolveFault.Z_mag Rg Xg
      /\ GeneratorSource.iSym gen = SolveFault.I_sym Rg Xg Vg
      /\ GeneratorSource.omega = 2 * PI * 60
      /\ GeneratorSource.tauMs gen = SolveFault.tau_ms Rg Xg
      /\ GeneratorSource.dcPercent gen t = SolveFault.DC_percent Rg Xg t
      /\ GeneratorSource.iDcKiloAmps gen t = SolveFault.I_dc Rg Xg Vg t
      /\ GeneratorSource.iAsymBreaking gen t = SolveFault.I_asym Rg Xg Vg t)
  /\ (rounds (SolveFault.I_sym Rg Xg Vg)
        (CalculationResult.symmetricalCurrentkA rg)
      /\ rounds (SolveFault.DC_percent Rg Xg t)
           (CalculationResult.dcComponentPercent rg)
      /\ rounds (SolveFault.I_asym Rg Xg Vg t)
           (CalculationResult.asymmetricalCurrentkA rg)
      /\ rounds (SolveFault.I_asym Rg Xg Vg t)
           (CalculationResult.breakingCapacityRequired rg)
      /\ rounds (SolveFault.tau_ms Rg Xg)
           (CalculationResult.timeConstantMs rg)).
Proof.
  intros Rs Xs Vs Rg Xg Vg rs rg rounds.
  unfold rounds, rs, rg, calculateSystemSourceFault,
    calculateGeneratorSourceFault, SystemSource.result, GeneratorSource.result.
  cbn [CalculationResult.symmetricalCurrentkA
       CalculationResult.dcComponentPercent
       CalculationResult.asymmetricalCurrentkA
       CalculationResult.breakingCapacityRequired
       CalculationResult.timeConstantMs].
  rewrite sys_iSym_spec, gen_iSym_spec, sys_iAsym_spec, gen_iAsym_spec.
  repeat match goal with |- _ /\ _ => split end;
    auto using sys_zTotal_spec, sys_iDc_spec, gen_zGen_spec, gen_iDc_spec,
               Number_toFixed2_rounded.
Qed.

End Formulas.

(** ** Signs and decay *)

Section Decay.

Lemma omega_pos : 0 < 2 * PI * 60.
Proof. pose proof PI_RGT_0. lra. Qed.

Lemma tau_pos (r x : R) : 0 < r -> 0 < x -> 0 < (x / (2 * PI * 60 * r)) * 1000.
Proof.
  intros Hr Hx. apply Rmult_lt_0_compat; [| lra].
  apply Rdiv_lt_0_compat; [assumption |].
  apply Rmult_lt_0_compat; [exact omega_pos | assumption].
Qed.

Lemma exp_decay_lt (tau t1 t2 : R) :
  0 < tau -> t1 < t2 -> 100 * exp (- t2 / tau) < 100 * exp (- t1 / tau).
Proof.
  intros Htau Ht. apply Rmult_lt_compat_l; [lra |].
  apply exp_increasing. unfold Rdiv.
  apply Rmult_lt_compat_r; [now apply Rinv_0_lt_compat | lra].
Qed.

Lemma exp_decay_at_0 (tau : R) : 100 * exp (- 0 / tau) = 100.
Proof.
  replace (- 0 / tau) with 0 by (unfold Rdiv; ring).
  rewrite exp_0. ring.
Qed.

Lemma exp_le_1 (x : R) : x <= 0 -> exp x <= 1.
Proof.
  intros [Hx | ->]; [| rewrite exp_0; lra].
  rewrite <- exp_0. left. now apply exp_increasing.
Qed.


Lemma gen_xd_ohms_pos (gen : GeneratorData.t) :
  0 < GeneratorData.mva gen -> 0 < GeneratorData.voltageKv gen ->
  0 < GeneratorData.subtransientReactanceXd gen ->
  0 < GeneratorSource.xdDoublePrimeOhms gen.
Proof.
  intros Hm Hv Hx.
  unfold GeneratorSource.xdDoublePrimeOhms, GeneratorSource.zBase,
    GeneratorSource.uBase, GeneratorSource.sBase, Math_pow.
  apply Rmult_lt_0_compat; [lra |].
  apply Rdiv_lt_0_compat; [| assumption].
  apply pow_lt. assumption.
Qed.

Lemma gen_rGen_pos (gen : GeneratorData.t) :
  0 < GeneratorData.mva gen -> 0 < GeneratorData.voltageKv gen ->
  0 < GeneratorData.subtransientReactanceXd gen ->
  0 < GeneratorData.xrRatio gen ->
  0 < GeneratorSource.rGen gen.
Proof.
  intros Hm Hv Hx Hr. unfold GeneratorSource.rGen.
  apply Rdiv_lt_0_compat; [now apply gen_xd_ohms_pos | assumption].
Qed.

Lemma gen_tauMs_pos (gen : GeneratorData.t) :
  0 < GeneratorData.mva gen -> 0 < GeneratorData.voltageKv gen ->
  0 < GeneratorData.subtransientReactanceXd gen ->
  0 < GeneratorData.xrRatio gen ->
  0 < GeneratorSource.tauMs gen.
Proof.
  intros Hm Hv Hx Hr. unfold GeneratorSource.tauMs, GeneratorSource.omega.
  apply tau_pos; [now apply gen_rGen_pos | now apply gen_xd_ohms_pos].
Qed.

(** With a non-zero reactance the generator's time constant is its X/R
    ratio over [omega], in milliseconds. *)
Lemma gen_tauMs_xr (gen : GeneratorData.t) :
  GeneratorSource.xdDoublePrimeOhms gen <> 0 ->
  GeneratorData.xrRatio gen <> 0 ->
  GeneratorSource.tauMs gen
  = GeneratorData.xrRatio gen / (2 * PI * 60) * 1000.
Proof.
  intros Hx Hr. unfold GeneratorSource.tauMs, GeneratorSource.omega,
    GeneratorSource.rGen.
  pose proof omega_pos. field. repeat split; try assumption; lra.
Qed.

Lemma gtb_true_iff (x y : R) : gtb x y = true <-> y < x.
Proof.
  unfold gtb. destruct (Rlt_dec y x); split; intros; congruence || assumption.
Qed.

Lemma gtb_false_iff (x y : R) : gtb x y = false <-> x <= y.
Proof.
  unfold gtb. destruct (Rlt_dec y x); split; intros; try congruence; lra.
Qed.

End Decay.

(** ** Peak current and the delayed-current-zero flag *)

Section PeakAndFlag.





(** C6. The generator-source result raises [currentZerosSkipped] exactly
    when the computed DC percentage exceeds 100, and the system-source
    result never raises it. *)
Theorem currentZerosSkipped_iff
  (gen : GeneratorData.t) (gsu : TransformerData.t) (sys : SystemData.t)
  (t : R) :
  (CalculationResult.currentZerosSkipped (calculateGeneratorSourceFault gen t)
   = true <-> GeneratorSource.dcPercent gen t > 100)
  /\ CalculationResult.currentZerosSkipped
       (calculateSystemSourceFault gen gsu sys t) = false.
Proof.
  split; [| reflexivity].
  unfold calculateGeneratorSourceFault, GeneratorSource.result.
  cbn [CalculationResult.currentZerosSkipped].
  unfold GeneratorSource.currentZerosSkipped. apply gtb_true_iff.
Qed.

End PeakAndFlag.

(** ** Positive resistance and reactance on the system path *)

Section SystemPath.

Lemma pow2_pos (x : R) : x <> 0 -> 0 < x ^ 2.
Proof.
  intros Hx. simpl. rewrite Rmult_1_r.
  destruct (Rtotal_order x 0) as [Hneg | [H0 | Hpos]]; [| contradiction |].
  - replace (x * x) with ((- x) * (- x)) by ring.
    apply Rmult_lt_0_compat; lra.
  - now apply Rmult_lt_0_compat.
Qed.

Lemma sys_zSysOhms_pos (gsu : TransformerData.t) (sys : SystemData.t) :
  TransformerData.secondaryVoltageKv gsu <> 0 ->
  0 < SystemData.shortCircuitCapacityMva sys ->
  0 < SystemSource.zSysOhms gsu sys.
Proof.
  intros Hv Hs. unfold SystemSource.zSysOhms, SystemSource.uBase, Math_pow.
  apply Rdiv_lt_0_compat; [now apply pow2_pos | assumption].
Qed.

Lemma sys_zGsuOhms_pos (gsu : TransformerData.t) :
  TransformerData.secondaryVoltageKv gsu <> 0 ->
  0 < TransformerData.impedanceZ gsu -> 0 < TransformerData.mva gsu ->
  0 < SystemSource.zGsuOhms gsu.
Proof.
  intros Hv Hz Hm. unfold SystemSource.zGsuOhms, SystemSource.uBase, Math_pow.
  apply Rmult_lt_0_compat; [lra |].
  apply Rdiv_lt_0_compat; [now apply pow2_pos | assumption].
Qed.

Lemma sys_rTotal_pos (gsu : TransformerData.t) (sys : SystemData.t) :
  0 < SystemSource.zSysOhms gsu sys -> 0 < SystemSource.zGsuOhms gsu ->
  0 < SystemSource.rTotal gsu sys.
Proof.
  intros Hs Hg. unfold SystemSource.rTotal, SystemSource.rSys,
    SystemSource.rGsu, SystemSource.thetaSys, SystemSource.thetaGsu.
  apply Rplus_lt_0_compat; apply Rmult_lt_0_compat;
    assumption || apply cos_atan_pos.
Qed.

Lemma sys_xTotal_pos (gsu : TransformerData.t) (sys : SystemData.t) :
  0 < SystemSource.zSysOhms gsu sys -> 0 < SystemSource.zGsuOhms gsu ->
  0 < SystemData.xrRatio sys -> 0 < TransformerData.xrRatio gsu ->
  0 < SystemSource.xTotal gsu sys.
Proof.
  intros Hs Hg Hxs Hxg. unfold SystemSource.xTotal, SystemSource.xSys,
    SystemSource.xGsu, SystemSource.thetaSys, SystemSource.thetaGsu.
  apply Rplus_lt_0_compat; apply Rmult_lt_0_compat;
    assumption || now apply sin_atan_pos.
Qed.

Lemma sys_tauMs_pos (gsu : TransformerData.t) (sys : SystemData.t) :
  0 < SystemSource.rTotal gsu sys -> 0 < SystemSource.xTotal gsu sys ->
  0 < SystemSource.tauMs gsu sys.
Proof.
  intros Hr Hx. unfold SystemSource.tauMs, SystemSource.omega.
  now apply tau_pos.
Qed.

(** The form's starting values give a positive resistance and reactance. *)
Lemma sys0_rTotal_pos : 0 < SystemSource.rTotal gsuData0 sysData0.
Proof.
  apply sys_rTotal_pos;
    [apply sys_zSysOhms_pos | apply sys_zGsuOhms_pos]; simpl; lra.
Qed.

Lemma sys0_xTotal_pos : 0 < SystemSource.xTotal gsuData0 sysData0.
Proof.
  apply sys_xTotal_pos;
    [apply sys_zSysOhms_pos | apply sys_zGsuOhms_pos | |]; simpl; lra.
Qed.

End SystemPath.

(** ** The DC percentage along the parting time *)

Section DcPercent.

(** C7, as the code has it. With a positive time constant (and, on the
    system path, a grid capacity and a transformer rating other than zero,
    so that no quotient has a zero divisor) the computed DC percentage does
    not grow as the contact-parting time grows, and is exactly 100 at
    parting time 0 (so is the rounded field of the result); on both
    paths. *)
Theorem dcPercent_non_increasing
  (gen : GeneratorData.t) (gsu : TransformerData.t) (sys : SystemData.t)
  (t1 t2 : R) :
  (SystemData.shortCircuitCapacityMva sys <> 0 ->
   TransformerData.mva gsu <> 0 ->
   0 < SystemSource.tauMs gsu sys ->
   (t1 <= t2 ->
    SystemSource.dcPercent gsu sys t2 <= SystemSource.dcPercent gsu sys t1)
   /\ SystemSource.dcPercent gsu sys 0 = 100
   /\ CalculationResult.dcComponentPercent
        (calculateSystemSourceFault gen gsu sys 0) = 100)
  /\ (0 < GeneratorSource.tauMs gen ->
      (t1 <= t2 ->
       GeneratorSource.dcPercent gen t2 <= GeneratorSource.dcPercent gen t1)
      /\ GeneratorSource.dcPercent gen 0 = 100
      /\ CalculationResult.dcComponentPercent
           (calculateGeneratorSourceFault gen 0) = 100).
Proof.
  assert (H100 : Number_toFixed2 100 = 100).
  { rewrite (Number_toFixed2_eval 100 10000); lra. }
  assert (Hmono : forall tau a b : R, 0 < tau -> a <= b ->
            100 * exp (- b / tau) <= 100 * exp (- a / tau)).
  { intros tau a b Htau [Hlt | ->]; [left; now apply exp_decay_lt | lra]. }
  split; [intros _ _ Htau | intros Htau]; (split; [| split]).
  - intros Ht. unfold SystemSource.dcPercent. now apply Hmono.
  - apply exp_decay_at_0.
  - unfold calculateSystemSourceFault, SystemSource.result.
    cbn [CalculationResult.dcComponentPercent].
    unfold SystemSource.dcPercent. now rewrite exp_decay_at_0.
  - intros Ht. unfold GeneratorSource.dcPercent. now apply Hmono.
  - apply exp_decay_at_0.
  - unfold calculateGeneratorSourceFault, GeneratorSource.result.
    cbn [CalculationResult.dcComponentPercent].
    unfold GeneratorSource.dcPercent. now rewrite exp_decay_at_0.
Qed.

Lemma dcPercent_non_increasing_witness :
  SystemSource.dcPercent gsuData0 sysData0 60
  <= SystemSource.dcPercent gsuData0 sysData0 50
  /\ GeneratorSource.dcPercent genData0 60
     <= GeneratorSource.dcPercent genData0 50
  /\ GeneratorSource.dcPercent genData0 0 = 100.
Proof.
  destruct (dcPercent_non_increasing genData0 gsuData0 sysData0 50 60)
    as [Hs Hg].
  destruct Hs as (Hs & _);
    [simpl; lra | simpl; lra
    | apply sys_tauMs_pos; [exact sys0_rTotal_pos | exact sys0_xTotal_pos] |].
  destruct Hg as (Hg & Hg0 & _); [apply gen_tauMs_pos; simpl; lra |].
  split; [apply Hs; lra | split; [apply Hg; lra | exact Hg0]].
Defined.

(** C7 as the specification states it fails on the doubles the code
    computes with: at a time constant of 80 ms the parting times [0] and
    [5e-324] are distinct, and the DC percentage is exactly 100 at both,
    since [-5e-324 / 80] rounds to [-0] and [Math.exp(-0)] is [1]. *)
Lemma dcPercent_not_strictly_decreasing :
  PrimFloat.ltb Double.zero Double.least_positive = true
  /\ PrimFloat.ltb Double.zero Double.eighty = true
  /\ Double.dcPercent Double.zero Double.eighty = Some Double.hundred
  /\ Double.dcPercent Double.least_positive Double.eighty
     = Some Double.hundred.
Proof. vm_compute. repeat split. Qed.



End DcPercent.

(** ** The 100 MVA, 13.8 kV generator *)

Section Generator100MVA.

Lemma gen0_zBase : GeneratorSource.zBase genData0 = 1.9044.
Proof.
  unfold GeneratorSource.zBase, GeneratorSource.uBase, GeneratorSource.sBase,
    Math_pow. simpl. lra.
Qed.

Lemma gen0_xdDoublePrimeOhms :
  GeneratorSource.xdDoublePrimeOhms genData0 = 0.28566.
Proof.
  unfold GeneratorSource.xdDoublePrimeOhms. rewrite gen0_zBase. simpl. lra.
Qed.

Lemma gen0_rGen : GeneratorSource.rGen genData0 = 0.009522.
Proof.
  unfold GeneratorSource.rGen. rewrite gen0_xdDoublePrimeOhms. simpl. lra.
Qed.

(** A bracket of a square root by two positive rationals. *)
Lemma sqrt_bracket (q a b : R) :
  0 <= a -> 0 <= b -> a * a <= q <= b * b -> a <= sqrt q <= b.
Proof.
  intros Ha Hb [Hlo Hhi].
  assert (Hq : 0 <= q) by nra.
  split.
  - rewrite <- (sqrt_square a Ha). apply sqrt_le_1; nra.
  - rewrite <- (sqrt_square b Hb). apply sqrt_le_1; nra.
Qed.

Lemma gen0_denominator :
  0.49505 <= sqrt 3 * GeneratorSource.zGen genData0 <= 0.49506.
Proof.
  unfold GeneratorSource.zGen.
  rewrite gen0_rGen, gen0_xdDoublePrimeOhms.
  rewrite <- sqrt_mult by lra.
  apply sqrt_bracket; lra.
Qed.

Lemma quotient_bracket (v d a b lo hi : R) :
  0 < a -> a <= d <= b -> 0 <= v -> lo * b <= v -> v <= hi * a ->
  lo <= v / d <= hi.
Proof.
  intros Ha [Hda Hdb] Hv Hlo Hhi.
  assert (Hd : 0 < d) by lra.
  assert (Hq : v / d * d = v) by (field; lra).
  assert (Hq0 : 0 <= v / d)
    by (apply Rmult_le_pos; [assumption | left; now apply Rinv_0_lt_compat]).
  split.
  - destruct (Rle_lt_dec lo (v / d)) as [H | H]; [assumption | exfalso].
    assert (v / d * d < lo * d) by (apply Rmult_lt_compat_r; assumption).
    assert (lo * d <= lo * b) by (apply Rmult_le_compat_l; lra).
    lra.
  - destruct (Rle_lt_dec (v / d) hi) as [H | H]; [assumption | exfalso].
    assert (hi * d < v / d * d) by (apply Rmult_lt_compat_r; assumption).
    assert (0 <= hi) by nra.
    assert (hi * a <= hi * d) by (apply Rmult_le_compat_l; lra).
    lra.
Qed.

Lemma gen0_iSym_bounds :
  27.8754 <= GeneratorSource.iSym genData0 <= 27.876.
Proof.
  unfold GeneratorSource.iSym.
  apply (quotient_bracket _ _ 0.49505 0.49506);
    [lra | exact gen0_denominator | | |];
    unfold GeneratorSource.uBase; simpl; lra.
Qed.

Lemma fault_solver_formulas_witness :
  SolveFault.rounded_to_two_decimals
    (SolveFault.I_sym (GeneratorSource.rGen genData0)
       (GeneratorSource.xdDoublePrimeOhms genData0)
       (GeneratorSource.uBase genData0))
    (CalculationResult.symmetricalCurrentkA
       (calculateGeneratorSourceFault genData0 partingTime0)).
Proof.
  destruct (fault_solver_formulas genData0 gsuData0 sysData0 partingTime0)
    as (_ & _ & _ & H & _).
  apply H. rewrite <- gen_iSym_spec.
  pose proof gen0_iSym_bounds as [Hlo Hhi].
  apply Rabs_def1; lra.
Defined.

Lemma gen0_symmetricalCurrentkA (t : R) :
  CalculationResult.symmetricalCurrentkA
    (calculateGeneratorSourceFault genData0 t) = 27.88.
Proof.
  unfold calculateGeneratorSourceFault, GeneratorSource.result.
  cbn [CalculationResult.symmetricalCurrentkA].
  pose proof gen0_iSym_bounds as [Hlo Hhi].
  rewrite (Number_toFixed2_eval _ 2788); lra.
Qed.

(** C2, as the code has it. For the generator (100 MVA, 13.8 kV,
    Xd'' = 15 %, X/R = 30) and a parting time of 50 ms the intermediates
    are [Z_base = 1.9044], [X = 0.28566] (0.2857 to four decimals) and
    [R = 0.009522] (0.00952 to five), and the symmetrical current is
    27.88 kA: the returned field is exactly 27.88 and the computed current
    lies within 0.005 of it. *)
Theorem generator_100MVA_symmetrical_current :
  GeneratorSource.zBase genData0 = 1.9044
  /\ GeneratorSource.xdDoublePrimeOhms genData0 = 0.28566
  /\ Rabs (GeneratorSource.xdDoublePrimeOhms genData0 - 0.2857) <= 0.00005
  /\ GeneratorSource.rGen genData0 = 0.009522
  /\ Rabs (GeneratorSource.rGen genData0 - 0.00952) <= 0.000005
  /\ CalculationResult.symmetricalCurrentkA
       (calculateGeneratorSourceFault genData0 50) = 27.88
  /\ Rabs (GeneratorSource.iSym genData0 - 27.88) < 0.005.
Proof.
  pose proof gen0_iSym_bounds as [Hlo Hhi].
  repeat split.
  - exact gen0_zBase.
  - exact gen0_xdDoublePrimeOhms.
  - rewrite gen0_xdDoublePrimeOhms. apply Rabs_le. lra.
  - exact gen0_rGen.
  - rewrite gen0_rGen. apply Rabs_le. lra.
  - apply gen0_symmetricalCurrentkA.
  - apply Rabs_def1; lra.
Qed.

(** The value the specification quotes, 24.17 kA, is not what the code
    returns: the result is 27.88 kA, more than 3.7 kA above it. *)
Lemma generator_100MVA_not_24_17 :
  CalculationResult.symmetricalCurrentkA
    (calculateGeneratorSourceFault genData0 50) <> 24.17
  /\ 3.7 < CalculationResult.symmetricalCurrentkA
             (calculateGeneratorSourceFault genData0 50) - 24.17
  /\ 3.7 < GeneratorSource.iSym genData0 - 24.17.
Proof.
  rewrite gen0_symmetricalCurrentkA.
  pose proof gen0_iSym_bounds as [Hlo Hhi].
  repeat split; lra.
Qed.

End Generator100MVA.

(** ** Signs of the outputs *)

Section OutputSigns.








(** *** Bounds on the square roots *)

Lemma sqrt3_bounds : 1 <= sqrt 3 <= 2.
Proof. apply sqrt_bracket; lra. Qed.

Lemma sqrt2_bounds : 1 <= sqrt 2 <= 2.
Proof. apply sqrt_bracket; lra. Qed.

End OutputSigns.

(** ** Rating selection *)

Section Selection.

Lemma geb_true_iff (x y : R) : geb x y = true <-> y <= x.
Proof.
  unfold geb. destruct (Rle_dec y x); split; intros; congruence || assumption.
Qed.

Lemma geb_false_iff (x y : R) : geb x y = false <-> x < y.
Proof.
  unfold geb. destruct (Rle_dec y x); split; intros; try congruence; lra.
Qed.

(** [find] with the test [k >= m] on an ascending list returns its least
    entry at or above [m], and nothing when every entry is below [m]. *)
Lemma find_ge_ascending (m : R) (l : list R) :
  StronglySorted Rle l ->
  match find (fun k => geb k m) l with
  | Some s => In s l /\ m <= s /\ (forall k, In k l -> m <= k -> s <= k)
  | None => forall k, In k l -> k < m
  end.
Proof.
  induction 1 as [| a l Hsorted IH Hall]; simpl.
  - intros k [].
  - destruct (geb a m) eqn:Ha.
    + apply geb_true_iff in Ha. split; [now left | split; [assumption |]].
      intros k [<- | Hk] _; [apply Rle_refl |].
      rewrite Forall_forall in Hall. now apply Hall.
    + apply geb_false_iff in Ha.
      destruct (find (fun k => geb k m) l) as [s |].
      * destruct IH as (Hin & Hms & Hmin).
        split; [now right | split; [assumption |]].
        intros k [<- | Hk] Hmk; [lra | now apply Hmin].
      * intros k [<- | Hk]; [assumption | now apply IH].
Qed.

Lemma stdBreakKA_ascending : StronglySorted Rle stdBreakKA.
Proof.
  unfold stdBreakKA.
  repeat (apply SSorted_cons;
          [| repeat (apply Forall_cons; [lra |]); apply Forall_nil]).
  apply SSorted_nil.
Qed.

Lemma stdBreakKA_positive (k : R) : In k stdBreakKA -> 0 < k.
Proof.
  unfold stdBreakKA. simpl. intros H.
  repeat (destruct H as [<- | H]; [lra |]). contradiction.
Qed.

Lemma stdBreakKA_last : nth (length stdBreakKA - 1) stdBreakKA 0 = 200.
Proof. reflexivity. Qed.

Lemma stdBreakKA_In_200 : In 200 stdBreakKA.
Proof. unfold stdBreakKA. simpl. tauto. Qed.

(** What the selection of the symmetrical rating does with a margin-applied
    current [m]. *)
Lemma selectedSymKA_spec
  (genData : GeneratorData.t) (sysResult genResult : CalculationResult.t)
  (marginPercent : R) :
  let m := RatingSelection.marginSymKA sysResult genResult marginPercent in
  let s := RatingSelection.selectedSymKA sysResult genResult marginPercent in
  In s stdBreakKA
  /\ ((exists k, In k stdBreakKA /\ m <= k) ->
      m <= s /\ (forall k, In k stdBreakKA -> m <= k -> s <= k))
  /\ ((forall k, In k stdBreakKA -> k < m) -> s = 200).
Proof.
  intros m s. unfold s, RatingSelection.selectedSymKA.
  rewrite stdBreakKA_last. fold m.
  pose proof (find_ge_ascending m stdBreakKA stdBreakKA_ascending) as Hfind.
  destruct (find (fun k => geb k m) stdBreakKA) as [v |]; simpl.
  - destruct Hfind as (Hin & Hmv & Hmin).
    pose proof (stdBreakKA_positive v Hin) as Hpos.
    destruct (Req_dec_T v 0) as [H0 | _]; [lra |].
    split; [assumption | split].
    + intros _. split; assumption.
    + intros Hall. specialize (Hall v Hin). lra.
  - split; [exact stdBreakKA_In_200 | split].
    + intros (k & Hk & Hmk). specialize (Hfind k Hk). lra.
    + reflexivity.
Qed.

Lemma Math_ceil_500_spec (x : R) :
  let s := Math_ceil (x / 500) * 500 in
  (exists n : Z, s = IZR n * 500)
  /\ x <= s
  /\ (forall n : Z, x <= IZR n * 500 -> s <= IZR n * 500).
Proof.
  intros s. unfold s, Math_ceil.
  destruct (Zceil_bound (x / 500)) as [Hlo Hhi].
  split; [now exists (Zceil (x / 500)) | split].
  - lra.
  - intros n Hn.
    assert (Hlt : (Zceil (x / 500) - 1 < n)%Z)
      by (apply lt_IZR; rewrite minus_IZR; lra).
    assert (Hle : IZR (Zceil (x / 500)) <= IZR n) by (apply IZR_le; lia).
    lra.
Qed.

(** C3. The selected continuous-current rating is the least multiple of
    500 A at or above the margin-applied continuous current
    [(MVA * 1000) / (sqrt 3 * V) * (1 + margin / 100)].  The selected
    symmetrical rating is the least entry of the standard list at or above
    the margin-applied [max] of the two symmetrical currents, and 200 kA,
    the last entry, when no entry reaches it; a margin-applied 45 kA
    selects 50 kA and a margin-applied 205 kA selects 200 kA. *)
Theorem rating_selection
  (genData : GeneratorData.t) (sysResult genResult : CalculationResult.t)
  (marginPercent : R) :
  let r := ratings genData sysResult genResult marginPercent in
  let cont := Ratings.continuous r in
  let sym := Ratings.sym r in
  (RatingRow.calc cont
   = (GeneratorData.mva genData * 1000)
     / (sqrt 3 * GeneratorData.voltageKv genData)
   /\ RatingRow.margin cont = RatingRow.calc cont * (1 + marginPercent / 100)
   /\ (exists n : Z, RatingRow.selected cont = IZR n * 500)
   /\ RatingRow.margin cont <= RatingRow.selected cont
   /\ (forall n : Z, RatingRow.margin cont <= IZR n * 500 ->
       RatingRow.selected cont <= IZR n * 500))
  /\ (stdBreakKA
       = [31.5; 40; 50; 63; 72; 80; 90; 100; 120; 140; 160; 190; 200]
      /\ RatingRow.calc sym
         = Rmax (CalculationResult.symmetricalCurrentkA sysResult)
                (CalculationResult.symmetricalCurrentkA genResult)
      /\ RatingRow.margin sym = RatingRow.calc sym * (1 + marginPercent / 100)
      /\ In (RatingRow.selected sym) stdBreakKA
      /\ ((exists k, In k stdBreakKA /\ RatingRow.margin sym <= k) ->
          RatingRow.margin sym <= RatingRow.selected sym
          /\ (forall k, In k stdBreakKA -> RatingRow.margin sym <= k ->
              RatingRow.selected sym <= k))
      /\ ((forall k, In k stdBreakKA -> k < RatingRow.margin sym) ->
          RatingRow.selected sym = 200))
  /\ (RatingRow.margin sym = 45 -> RatingRow.selected sym = 50)
  /\ (RatingRow.margin sym = 205 -> RatingRow.selected sym = 200).
Proof.
  intros r cont sym.
  destruct (selectedSymKA_spec genData sysResult genResult marginPercent)
    as (Hin & Hsome & Hnone).
  destruct (Math_ceil_500_spec
              (RatingSelection.marginContinuousA genData marginPercent))
    as (Hmult & Hge & Hleast).
  unfold sym, cont, r, ratings, RatingSelection.result.
  cbn [Ratings.continuous Ratings.sym RatingRow.calc RatingRow.margin
       RatingRow.selected].
  split; [| split; [| split]].
  - repeat split; try reflexivity; assumption.
  - repeat split; try reflexivity; try assumption; now apply Hsome.
  - intros Hm. rewrite Hm in Hsome.
    destruct Hsome as [Hlo Hmin].
    { exists 50. split; [unfold stdBreakKA; simpl; tauto | lra]. }
    assert (H50 : In 50 stdBreakKA) by (unfold stdBreakKA; simpl; tauto).
    specialize (Hmin 50 H50 ltac:(lra)).
    revert Hin Hlo Hmin.
    generalize (RatingSelection.selectedSymKA sysResult genResult marginPercent).
    intros v Hin Hlo Hmin. unfold stdBreakKA in Hin. simpl in Hin.
    repeat (destruct Hin as [<- | Hin]; [lra |]). contradiction.
  - intros Hm. apply Hnone. rewrite Hm. intros k Hk.
    unfold stdBreakKA in Hk. simpl in Hk.
    repeat (destruct Hk as [<- | Hk]; [lra |]). contradiction.
Qed.

(** Results shaped as the solvers build them, with the larger symmetrical
    current at 45 kA and at 205 kA. *)
Lemma rating_selection_witness :
  let sysR := CalculationResult.mk System 45 1.4 66.2 45.01 None 45.01 30.1
                false in
  let sysR' := CalculationResult.mk System 205 1.4 301.6 205.04 None 205.04
                 30.1 false in
  let genR := CalculationResult.mk Generator 27.88 53.35 78.84 34.92 None
                34.92 79.58 false in
  (RatingRow.selected (Ratings.sym (ratings genData0 sysR genR 0)) = 50
   /\ RatingRow.margin (Ratings.sym (ratings genData0 sysR genR 0))
      <= RatingRow.selected (Ratings.sym (ratings genData0 sysR genR 0)))
  /\ RatingRow.selected (Ratings.sym (ratings genData0 sysR' genR 0)) = 200.
Proof.
  intros sysR sysR' genR.
  assert (Hm : forall (sR : CalculationResult.t) (v : R),
             CalculationResult.symmetricalCurrentkA sR = v -> 27.88 <= v ->
             RatingRow.margin (Ratings.sym (ratings genData0 sR genR 0)) = v).
  { intros sR v Hv Hle. unfold ratings, RatingSelection.result.
    cbn [Ratings.sym RatingRow.margin].
    unfold RatingSelection.marginSymKA, RatingSelection.maxSymKA,
      RatingSelection.marginFactor, Math_max, genR.
    cbn [CalculationResult.symmetricalCurrentkA].
    rewrite Hv, Rmax_left by lra. lra. }
  split.
  - destruct (rating_selection genData0 sysR genR 0)
      as (_ & (_ & _ & _ & _ & Hsome & _) & H45 & _).
    split; [apply H45, Hm; [reflexivity | lra] |].
    apply Hsome. exists 50.
    split; [unfold stdBreakKA; simpl; tauto |].
    rewrite (Hm sysR 45); [lra | reflexivity | lra].
  - destruct (rating_selection genData0 sysR' genR 0) as (_ & _ & _ & H205).
    apply H205, Hm; [reflexivity | lra].
Defined.

(** C4. The selected asymmetrical rating is the selected symmetrical
    rating times 1.732 and the selected peak rating is the selected
    symmetrical rating times 2.74.  The calculated and margin-applied
    values of these two rows are the [max] of the two results' asymmetrical
    and peak currents, with the margin factor applied; they are the same
    for any other pair of results with the same asymmetrical and peak
    currents, whatever their symmetrical currents select. *)
Theorem derived_ratings
  (genData : GeneratorData.t) (sysResult genResult : CalculationResult.t)
  (marginPercent : R) :
  let r := ratings genData sysResult genResult marginPercent in
  RatingRow.selected (Ratings.asym r)
  = RatingRow.selected (Ratings.sym r) * 1.732
  /\ RatingRow.selected (Ratings.peak r)
     = RatingRow.selected (Ratings.sym r) * 2.74
  /\ RatingRow.calc (Ratings.asym r)
     = Rmax (CalculationResult.asymmetricalCurrentkA sysResult)
            (CalculationResult.asymmetricalCurrentkA genResult)
  /\ RatingRow.margin (Ratings.asym r)
     = RatingRow.calc (Ratings.asym r) * (1 + marginPercent / 100)
  /\ RatingRow.calc (Ratings.peak r)
     = Rmax (CalculationResult.peakCurrentkA sysResult)
            (CalculationResult.peakCurrentkA genResult)
  /\ RatingRow.margin (Ratings.peak r)
     = RatingRow.calc (Ratings.peak r) * (1 + marginPercent / 100)
  /\ (forall sysResult' genResult' : CalculationResult.t,
      CalculationResult.asymmetricalCurrentkA sysResult'
      = CalculationResult.asymmetricalCurrentkA sysResult ->
      CalculationResult.asymmetricalCurrentkA genResult'
      = CalculationResult.asymmetricalCurrentkA genResult ->
      CalculationResult.peakCurrentkA sysResult'
      = CalculationResult.peakCurrentkA sysResult ->
      CalculationResult.peakCurrentkA genResult'
      = CalculationResult.peakCurrentkA genResult ->
      let r' := ratings genData sysResult' genResult' marginPercent in
      RatingRow.calc (Ratings.asym r') = RatingRow.calc (Ratings.asym r)
      /\ RatingRow.margin (Ratings.asym r') = RatingRow.margin (Ratings.asym r)
      /\ RatingRow.calc (Ratings.peak r') = RatingRow.calc (Ratings.peak r)
      /\ RatingRow.margin (Ratings.peak r')
         = RatingRow.margin (Ratings.peak r)).
Proof.
  intros r. unfold r, ratings, RatingSelection.result.
  cbn [Ratings.asym Ratings.peak Ratings.sym RatingRow.calc RatingRow.margin
       RatingRow.selected].
  repeat split; try reflexivity.
  all: unfold RatingSelection.marginAsymKA, RatingSelection.marginPeakKA,
         RatingSelection.maxAsymKA, RatingSelection.maxPeakKA; congruence.
Qed.

Lemma derived_ratings_witness :
  let sysR := CalculationResult.mk System 45 1.4 66.2 45.01 None 45.01 30.1
                false in
  let genR := CalculationResult.mk Generator 27.88 53.35 78.84 34.92 None
                34.92 79.58 false in
  let sysR' := CalculationResult.mk System 205 1.4 66.2 45.01 None 45.01 30.1
                 false in
  RatingRow.margin (Ratings.asym (ratings genData0 sysR' genR marginPercent0))
  = RatingRow.margin (Ratings.asym (ratings genData0 sysR genR marginPercent0))
  /\ RatingRow.margin (Ratings.peak (ratings genData0 sysR' genR marginPercent0))
     = RatingRow.margin
         (Ratings.peak (ratings genData0 sysR genR marginPercent0)).
Proof.
  intros sysR genR sysR'.
  destruct (derived_ratings genData0 sysR genR marginPercent0)
    as (_ & _ & _ & _ & _ & _ & Hindep).
  destruct (Hindep sysR' genR) as (_ & Ha & _ & Hp); try reflexivity.
  split; assumption.
Defined.

End Selection.

(** ** The waveform sampler *)

Section Sampler.

Lemma leb_true_iff (x y : R) : leb x y = true <-> x <= y.
Proof.
  unfold leb. destruct (Rle_dec x y); split; intros; congruence || assumption.
Qed.

Lemma leb_false_iff (x y : R) : leb x y = false <-> y < x.
Proof.
  unfold leb. destruct (Rle_dec x y); split; intros; try congruence; lra.
Qed.

(** From time [k], the loop whose bound lies in [[k + n - 1, k + n)] pushes
    the samples at [k], [k + 1], ..., [k + n - 1] and stops; [n + 1] tests
    of the condition are run. *)
Lemma loop_pushes (iSym tauMs freq : R) (n : nat) :
  forall (k fuel : nat) (data : list WaveformSample.t),
    (n < fuel)%nat ->
    (forall i, (i < n)%nat -> INR (k + i) <= Waveform.totalTime freq) ->
    Waveform.totalTime freq < INR (k + n) ->
    Waveform.loop iSym tauMs freq fuel (INR k) data
    = Some (data ++ map (fun i => Waveform.sample iSym tauMs freq (INR i))
                        (seq k n)).
Proof.
  induction n as [| n IH]; intros k fuel data Hfuel Hin Hout.
  - destruct fuel as [| fuel]; [lia |]. simpl.
    rewrite Nat.add_0_r in Hout.
    rewrite (proj2 (leb_false_iff _ _) Hout). now rewrite app_nil_r.
  - destruct fuel as [| fuel]; [lia |]. simpl.
    assert (Hk : INR k <= Waveform.totalTime freq)
      by (specialize (Hin 0%nat); rewrite Nat.add_0_r in Hin; apply Hin; lia).
    rewrite (proj2 (leb_true_iff _ _) Hk).
    rewrite <- S_INR. rewrite (IH (S k) fuel).
    + now rewrite <- app_assoc.
    + lia.
    + intros i Hi. replace (S k + i)%nat with (k + S i)%nat by lia.
      apply Hin. lia.
    + now replace (S k + n)%nat with (k + S n)%nat by lia.
Qed.

(** Too little fuel: the run is not covered. *)
Lemma loop_out_of_fuel (iSym tauMs freq : R) (fuel : nat) :
  forall (k : nat) (data : list WaveformSample.t),
    (forall i, (i < fuel)%nat -> INR (k + i) <= Waveform.totalTime freq) ->
    Waveform.loop iSym tauMs freq fuel (INR k) data = None.
Proof.
  induction fuel as [| fuel IH]; intros k data Hin; [reflexivity |]. simpl.
  assert (Hk : INR k <= Waveform.totalTime freq)
    by (specialize (Hin 0%nat); rewrite Nat.add_0_r in Hin; apply Hin; lia).
  rewrite (proj2 (leb_true_iff _ _) Hk). rewrite <- S_INR. apply IH.
  intros i Hi. replace (S k + i)%nat with (k + S i)%nat by lia.
  apply Hin. lia.
Qed.

Lemma totalTime_60 : 83 < Waveform.totalTime 60 < 84.
Proof. unfold Waveform.totalTime. lra. Qed.

Lemma Zfloor_totalTime_60 : Zfloor (5 * (1000 / 60)) = 83%Z.
Proof. apply Zfloor_eq. lra. Qed.

Lemma INR_le_83 (i : nat) : (i < 84)%nat -> INR i <= 83.
Proof.
  intros Hi. replace 83 with (INR 83) by (rewrite INR_IZR_INZ; reflexivity).
  apply le_INR. lia.
Qed.

Lemma waveform_60Hz_run (iSym tauMs : R) (fuel : nat) :
  (85 <= fuel)%nat ->
  Waveform.loop iSym tauMs 60 fuel 0 []
  = Some (map (fun i => Waveform.sample iSym tauMs 60 (INR i)) (seq 0 84)).
Proof.
  intros Hfuel. pose proof totalTime_60 as [Hlo Hhi].
  change 0 with (INR 0) at 1.
  rewrite (loop_pushes iSym tauMs 60 84 0 fuel []); [reflexivity | lia | |].
  - intros i Hi. pose proof (INR_le_83 i Hi). simpl (0 + i)%nat. lra.
  - replace (INR (0 + 84)) with 84 by (rewrite INR_IZR_INZ; reflexivity).
    assumption.
Qed.

Lemma samples_nth (iSym tauMs freq : R) (n i : nat) :
  (i < n)%nat ->
  nth_error (map (fun i => Waveform.sample iSym tauMs freq (INR i)) (seq 0 n)) i
  = Some (Waveform.sample iSym tauMs freq (INR i)).
Proof.
  intros Hi. rewrite nth_error_map, nth_error_seq.
  destruct (Nat.ltb_spec i n) as [_ | Hge]; [reflexivity | lia].
Qed.

(** C9. Given fuel for its 85 tests of the loop condition, the sampler
    called with [I_sym = 20], [tau = 50] and [f = 60] (given, or left to
    its default) returns 84 samples, that is [5 * (1000 / 60) + 1] counted
    in whole milliseconds, [floor (5 * (1000 / 60)) + 1]: sample [i] is at
    [i] ms, so the samples start at 0 and are 1 ms apart; the first one has
    the DC term [sqrt 2 * 20]; the last one is at 83 ms, the last whole
    millisecond of the five periods of [5 * (1000 / 60)] ms. *)
Theorem waveform_60Hz_samples (fuel : nat) :
  (85 <= fuel)%nat ->
  exists data : list WaveformSample.t,
    generateWaveformData fuel 20 50 (Some 60) = Some data
    /\ generateWaveformData fuel 20 50 None = Some data
    /\ length data = 84%nat
    /\ INR (length data) = IZR (Zfloor (5 * (1000 / 60))) + 1
    /\ (forall i, (i < 84)%nat ->
        exists s, nth_error data i = Some s /\ WaveformSample.time s = INR i)
    /\ (forall i s s', nth_error data i = Some s ->
        nth_error data (S i) = Some s' ->
        WaveformSample.time s' = WaveformSample.time s + 1)
    /\ (exists s0, nth_error data 0 = Some s0
                   /\ WaveformSample.time s0 = 0
                   /\ WaveformSample.dc s0 = sqrt 2 * 20)
    /\ (exists s83, nth_error data 83 = Some s83
                    /\ nth_error data 84 = None
                    /\ WaveformSample.time s83 = 83
                    /\ WaveformSample.time s83 <= 5 * (1000 / 60)
                       < WaveformSample.time s83 + 1).
Proof.
  intros Hfuel.
  exists (map (fun i => Waveform.sample 20 50 60 (INR i)) (seq 0 84)).
  assert (Hlen : length (map (fun i => Waveform.sample 20 50 60 (INR i))
                             (seq 0 84)) = 84%nat)
    by (now rewrite length_map, length_seq).
  split; [| split; [| split; [| split; [| split; [| split; [| split]]]]]].
  - unfold generateWaveformData. now apply waveform_60Hz_run.
  - unfold generateWaveformData. now apply waveform_60Hz_run.
  - exact Hlen.
  - rewrite Hlen, Zfloor_totalTime_60, INR_IZR_INZ. simpl. lra.
  - intros i Hi. eexists. split; [now apply samples_nth | reflexivity].
  - intros i s s' Hs Hs'.
    assert (Hi : (S i < 84)%nat).
    { rewrite <- Hlen. apply nth_error_Some. congruence. }
    rewrite samples_nth in Hs by lia. rewrite samples_nth in Hs' by lia.
    injection Hs as <-. injection Hs' as <-.
    cbn [Waveform.sample WaveformSample.time]. apply S_INR.
  - eexists. split; [apply samples_nth; lia |].
    cbn [Waveform.sample WaveformSample.time WaveformSample.dc INR].
    split; [reflexivity |].
    replace (- 0 / 50) with 0 by lra. rewrite exp_0. ring.
  - eexists. split; [apply samples_nth; lia |].
    split; [apply nth_error_None; rewrite Hlen; lia |].
    cbn [Waveform.sample WaveformSample.time].
    rewrite INR_IZR_INZ. simpl Z.of_nat. lra.
Qed.

Lemma waveform_60Hz_samples_witness :
  exists data : list WaveformSample.t,
    generateWaveformData 85 20 50 (Some 60) = Some data
    /\ length data = 84%nat.
Proof.
  destruct (waveform_60Hz_samples 85 (le_n 85)) as (data & Hrun & _ & Hlen & _).
  exists data. split; assumption.
Defined.

(** With the fuel of only 84 tests the run is not covered: the 84 samples
    need the 85th test, the one that fails. *)
Lemma waveform_60Hz_needs_85 :
  generateWaveformData 84 20 50 (Some 60) = None.
Proof.
  unfold generateWaveformData. change 0 with (INR 0) at 1.
  apply loop_out_of_fuel. intros i Hi.
  pose proof (INR_le_83 i Hi). pose proof totalTime_60. simpl (0 + i)%nat. lra.
Qed.

End Sampler.

(** * Further properties of the engine *)

(** ** What the rounding of a result costs *)

Section RoundingError.

Lemma toFixed2_abs_error (x : R) : Rabs (toFixed2_abs x - x) <= / 200.
Proof.
  unfold toFixed2_abs. destruct (Rle_dec (10 ^ 21) x) as [_ | _].
  - replace (x - x) with 0 by ring. rewrite Rabs_R0. lra.
  - destruct (Zfloor_bound (x * 100 + / 2)) as [Hlo Hhi].
    apply Rabs_le. lra.
Qed.

Lemma Number_toFixed2_error (x : R) : Rabs (Number_toFixed2 x - x) <= / 200.
Proof.
  unfold Number_toFixed2. destruct (Rlt_dec x 0) as [_ | _].
  - replace (- toFixed2_abs (- x) - x) with (- (toFixed2_abs (- x) - - x))
      by ring.
    rewrite Rabs_Ropp. apply toFixed2_abs_error.
  - apply toFixed2_abs_error.
Qed.

(** X1. Every magnitude of a result lies within 0.005 of the value the solver
    computed for it. *)
Theorem results_within_half_a_hundredth
  (gen : GeneratorData.t) (gsu : TransformerData.t) (sys : SystemData.t)
  (t : R) :
  let rs := calculateSystemSourceFault gen gsu sys t in
  let rg := calculateGeneratorSourceFault gen t in
  (Rabs (CalculationResult.symmetricalCurrentkA rs
         - SystemSource.iSym gsu sys) <= 0.005
   /\ Rabs (CalculationResult.dcComponentPercent rs
           - SystemSource.dcPercent gsu sys t) <= 0.005
   /\ Rabs (CalculationResult.peakCurrentkA rs
           - SystemSource.iPeak gsu sys) <= 0.005
   /\ Rabs (CalculationResult.asymmetricalCurrentkA rs
           - SystemSource.iAsymBreaking gsu sys t) <= 0.005
   /\ Rabs (CalculationResult.breakingCapacityRequired rs
           - SystemSource.iAsymBreaking gsu sys t) <= 0.005
   /\ Rabs (CalculationResult.timeConstantMs rs
           - SystemSource.tauMs gsu sys) <= 0.005)
  /\ (Rabs (CalculationResult.symmetricalCurrentkA rg
            - GeneratorSource.iSym gen) <= 0.005
      /\ Rabs (CalculationResult.dcComponentPercent rg
              - GeneratorSource.dcPercent gen t) <= 0.005
      /\ Rabs (CalculationResult.peakCurrentkA rg
              - GeneratorSource.iPeak gen) <= 0.005
      /\ Rabs (CalculationResult.asymmetricalCurrentkA rg
              - GeneratorSource.iAsymBreaking gen t) <= 0.005
      /\ Rabs (CalculationResult.breakingCapacityRequired rg
              - GeneratorSource.iAsymBreaking gen t) <= 0.005
      /\ Rabs (CalculationResult.timeConstantMs rg
              - GeneratorSource.tauMs gen) <= 0.005).
Proof.
  assert (H : forall x, Rabs (Number_toFixed2 x - x) <= 0.005)
    by (intros x; pose proof (Number_toFixed2_error x); lra).
  cbv zeta. unfold calculateSystemSourceFault, calculateGeneratorSourceFault,
    SystemSource.result, GeneratorSource.result. cbn.
  repeat split; apply H.
Qed.

End RoundingError.

(** ** The impedance network of the system path *)

Section ImpedanceNetwork.

Lemma sin_atan_eq (x : R) : sin (atan x) = x * cos (atan x).
Proof.
  pose proof (cos_atan_pos x) as Hc.
  rewrite <- (tan_atan x) at 2. unfold tan. field. lra.
Qed.

Lemma cos2_sin2_atan (x : R) :
  cos (atan x) * cos (atan x) + sin (atan x) * sin (atan x) = 1.
Proof.
  pose proof (sin2_cos2 (atan x)) as H. unfold Rsqr in H. lra.
Qed.


(** X2. Each impedance is split into a resistance and a reactance that give
    back its magnitude and its X/R ratio. *)
Theorem impedance_split (gsu : TransformerData.t) (sys : SystemData.t) :
  SystemSource.rSys gsu sys ^ 2 + SystemSource.xSys gsu sys ^ 2
  = SystemSource.zSysOhms gsu sys ^ 2
  /\ SystemSource.xSys gsu sys
     = SystemData.xrRatio sys * SystemSource.rSys gsu sys
  /\ SystemSource.rGsu gsu ^ 2 + SystemSource.xGsu gsu ^ 2
     = SystemSource.zGsuOhms gsu ^ 2
  /\ SystemSource.xGsu gsu
     = TransformerData.xrRatio gsu * SystemSource.rGsu gsu.
Proof.
  unfold SystemSource.rSys, SystemSource.xSys, SystemSource.rGsu,
    SystemSource.xGsu, SystemSource.thetaSys, SystemSource.thetaGsu.
  pose proof (cos2_sin2_atan (SystemData.xrRatio sys)) as Hs.
  pose proof (cos2_sin2_atan (TransformerData.xrRatio gsu)) as Hg.
  repeat split.
  - set (z := SystemSource.zSysOhms gsu sys).
    replace ((z * cos (atan (SystemData.xrRatio sys))) ^ 2
             + (z * sin (atan (SystemData.xrRatio sys))) ^ 2)
      with (z ^ 2 * (cos (atan (SystemData.xrRatio sys))
                     * cos (atan (SystemData.xrRatio sys))
                     + sin (atan (SystemData.xrRatio sys))
                       * sin (atan (SystemData.xrRatio sys)))) by ring.
    rewrite Hs. ring.
  - rewrite sin_atan_eq. ring.
  - set (z := SystemSource.zGsuOhms gsu).
    replace ((z * cos (atan (TransformerData.xrRatio gsu))) ^ 2
             + (z * sin (atan (TransformerData.xrRatio gsu))) ^ 2)
      with (z ^ 2 * (cos (atan (TransformerData.xrRatio gsu))
                     * cos (atan (TransformerData.xrRatio gsu))
                     + sin (atan (TransformerData.xrRatio gsu))
                       * sin (atan (TransformerData.xrRatio gsu)))) by ring.
    rewrite Hg. ring.
  - rewrite sin_atan_eq. ring.
Qed.

Lemma Rle_div_of_mult (a n d : R) : 0 < d -> a * d <= n -> a <= n / d.
Proof.
  intros Hd H. apply Rmult_le_reg_r with d; [assumption |].
  replace (n / d * d) with n by (field; lra). assumption.
Qed.

Lemma Rdiv_le_of_mult (a n d : R) : 0 < d -> n <= a * d -> n / d <= a.
Proof.
  intros Hd H. apply Rmult_le_reg_r with d; [assumption |].
  replace (n / d * d) with n by (field; lra). assumption.
Qed.






Lemma cos_sin_dot_le_1 (a b : R) : cos a * cos b + sin a * sin b <= 1.
Proof.
  pose proof (sin2_cos2 a) as Ha. pose proof (sin2_cos2 b) as Hb.
  unfold Rsqr in Ha, Hb.
  pose proof (pow2_ge_0 (cos a - cos b)) as H1.
  pose proof (pow2_ge_0 (sin a - sin b)) as H2.
  simpl in H1, H2. lra.
Qed.

Lemma sys_total_squares (gsu : TransformerData.t) (sys : SystemData.t) :
  SystemSource.rTotal gsu sys * SystemSource.rTotal gsu sys
  + SystemSource.xTotal gsu sys * SystemSource.xTotal gsu sys
  = SystemSource.zSysOhms gsu sys ^ 2 + SystemSource.zGsuOhms gsu ^ 2
    + 2 * (SystemSource.zSysOhms gsu sys * SystemSource.zGsuOhms gsu)
      * (cos (SystemSource.thetaSys sys) * cos (SystemSource.thetaGsu gsu)
         + sin (SystemSource.thetaSys sys) * sin (SystemSource.thetaGsu gsu)).
Proof.
  unfold SystemSource.rTotal, SystemSource.xTotal, SystemSource.rSys,
    SystemSource.xSys, SystemSource.rGsu, SystemSource.xGsu.
  pose proof (sin2_cos2 (SystemSource.thetaSys sys)) as Hs.
  pose proof (sin2_cos2 (SystemSource.thetaGsu gsu)) as Hg.
  unfold Rsqr in Hs, Hg.
  set (zs := SystemSource.zSysOhms gsu sys).
  set (zg := SystemSource.zGsuOhms gsu).
  set (cs := cos (SystemSource.thetaSys sys)) in *.
  set (ss := sin (SystemSource.thetaSys sys)) in *.
  set (cg := cos (SystemSource.thetaGsu gsu)) in *.
  set (sg := sin (SystemSource.thetaGsu gsu)) in *.
  replace ((zs * cs + zg * cg) * (zs * cs + zg * cg)
           + (zs * ss + zg * sg) * (zs * ss + zg * sg))
    with (zs ^ 2 * (ss * ss + cs * cs) + zg ^ 2 * (sg * sg + cg * cg)
          + 2 * (zs * zg) * (cs * cg + ss * sg)) by ring.
  rewrite Hs, Hg. ring.
Qed.

(** X4. The combined impedance, a vector sum, is at most the sum of the two
    magnitudes, and equal to it when grid and transformer have the same
    X/R ratio; so for a non-negative base voltage the symmetrical current
    is at least the one the plain sum of magnitudes would give. *)
Theorem system_impedance_triangle
  (gsu : TransformerData.t) (sys : SystemData.t) :
  0 < SystemSource.zSysOhms gsu sys -> 0 < SystemSource.zGsuOhms gsu ->
  SystemSource.zTotal gsu sys
  <= SystemSource.zSysOhms gsu sys + SystemSource.zGsuOhms gsu
  /\ (SystemData.xrRatio sys = TransformerData.xrRatio gsu ->
      SystemSource.zTotal gsu sys
      = SystemSource.zSysOhms gsu sys + SystemSource.zGsuOhms gsu)
  /\ (0 <= SystemSource.uBase gsu ->
      SystemSource.uBase gsu
      / (sqrt 3 * (SystemSource.zSysOhms gsu sys + SystemSource.zGsuOhms gsu))
      <= SystemSource.iSym gsu sys).
Proof.
  intros Hzs Hzg.
  pose proof (sys_total_squares gsu sys) as Hsq.
  pose proof (cos_sin_dot_le_1 (SystemSource.thetaSys sys)
                (SystemSource.thetaGsu gsu)) as Hdot.
  assert (Hle : SystemSource.zTotal gsu sys
                <= SystemSource.zSysOhms gsu sys + SystemSource.zGsuOhms gsu).
  { unfold SystemSource.zTotal. rewrite Hsq.
    rewrite <- (sqrt_square (SystemSource.zSysOhms gsu sys
                             + SystemSource.zGsuOhms gsu)) by lra.
    apply sqrt_le_1_alt.
    assert (0 < SystemSource.zSysOhms gsu sys * SystemSource.zGsuOhms gsu)
      by (now apply Rmult_lt_0_compat).
    nra. }
  split; [exact Hle | split].
  - intros Hxr. unfold SystemSource.zTotal. rewrite Hsq.
    unfold SystemSource.thetaSys, SystemSource.thetaGsu. rewrite <- Hxr.
    rewrite cos2_sin2_atan.
    rewrite <- (sqrt_square (SystemSource.zSysOhms gsu sys
                             + SystemSource.zGsuOhms gsu)) by lra.
    f_equal. ring.
  - intros Hv. unfold SystemSource.iSym.
    pose proof (sys_rTotal_pos gsu sys Hzs Hzg) as Hr.
    assert (Hz : 0 < SystemSource.zTotal gsu sys)
      by (unfold SystemSource.zTotal; apply sqrt_lt_R0; nra).
    pose proof sqrt3_bounds as [Hs3 _].
    unfold Rdiv. apply Rmult_le_compat_l; [assumption |].
    apply Rinv_le_contravar.
    + apply Rmult_lt_0_compat; lra.
    + apply Rmult_le_compat_l; lra.
Qed.

Lemma system_impedance_triangle_witness :
  SystemSource.zTotal gsuData0 sysData0
  <= SystemSource.zSysOhms gsuData0 sysData0 + SystemSource.zGsuOhms gsuData0
  /\ SystemSource.uBase gsuData0
     / (sqrt 3 * (SystemSource.zSysOhms gsuData0 sysData0
                  + SystemSource.zGsuOhms gsuData0))
     <= SystemSource.iSym gsuData0 sysData0.
Proof.
  destruct (system_impedance_triangle gsuData0 sysData0) as (H1 & _ & H2).
  - apply sys_zSysOhms_pos; simpl; lra.
  - apply sys_zGsuOhms_pos; simpl; lra.
  - split; [exact H1 | apply H2; simpl; lra].
Defined.

End ImpedanceNetwork.

(** ** The generator path in closed form *)

Section GeneratorClosedForm.







End GeneratorClosedForm.

(** ** The asymmetrical current against the symmetrical one *)

Section Asymmetry.













End Asymmetry.

(** ** The breakdown panel: red DC cell and warning *)

Section Breakdown.

Lemma gen0_tauMs_bounds : 62.5 <= GeneratorSource.tauMs genData0.
Proof.
  rewrite gen_tauMs_xr.
  - simpl. pose proof PI_4 as H4. pose proof PI_RGT_0 as H0.
    assert (Hw : / 480 <= / (2 * PI * 60))
      by (apply Rinv_le_contravar; lra).
    unfold Rdiv. lra.
  - rewrite gen0_xdDoublePrimeOhms. lra.
  - simpl. lra.
Qed.

Lemma exp_small_bounds (x : R) : 0 < x < 1 -> 1 < exp x <= / (1 - x).
Proof.
  intros [H0 H1]. split.
  - rewrite <- exp_0. now apply exp_increasing.
  - pose proof (exp_ineq1_le (- x)) as Hn.
    pose proof (exp_pos x) as Hp.
    assert (He : exp x * exp (- x) = 1)
      by (rewrite <- exp_plus, Rplus_opp_r; apply exp_0).
    apply Rmult_le_reg_r with (1 - x); [lra |].
    rewrite Rinv_l by lra.
    apply Rle_trans with (exp x * exp (- x)); [| lra].
    apply Rmult_le_compat_l; lra.
Qed.

(** A parting time of -0.001 ms on the 100 MVA generator: the computed DC
    percentage is just above 100. *)
Lemma gen0_dcPercent_just_above_100 :
  100 < GeneratorSource.dcPercent genData0 (- 0.001) < 100.002.
Proof.
  unfold GeneratorSource.dcPercent.
  pose proof gen0_tauMs_bounds as Htau.
  set (tau := GeneratorSource.tauMs genData0) in *.
  assert (Hx : 0 < - - 0.001 / tau <= 0.000016).
  { replace (- - 0.001 / tau) with (0.001 / tau) by (unfold Rdiv; lra).
    split; [apply Rdiv_lt_0_compat; lra |].
    apply Rdiv_le_of_mult; lra. }
  destruct (exp_small_bounds (- - 0.001 / tau)) as [Hlo Hhi]; [lra |].
  assert (Hinv : / (1 - - - 0.001 / tau) <= / (1 - 0.000016))
    by (apply Rinv_le_contravar; lra).
  lra.
Qed.

(** X9. Whenever the DC cell of the generator breakdown is shown in red (its
    rounded DC percentage exceeds 100), the delayed-current-zero warning
    is shown too.  The converse does not hold: the warning tests the
    unrounded percentage, so it can appear beside a DC cell that reads
    100 and is not red. *)
Theorem red_dc_cell_implies_warning :
  (forall (gen : GeneratorData.t) (t : R),
     dcCellClassName (calculateGeneratorSourceFault gen t)
     = "text-red-600 font-bold"%string ->
     delayedZerosWarningShown (calculateGeneratorSourceFault gen t) = true)
  /\ (exists (gen : GeneratorData.t) (t : R),
        delayedZerosWarningShown (calculateGeneratorSourceFault gen t) = true
        /\ CalculationResult.dcComponentPercent
             (calculateGeneratorSourceFault gen t) = 100
        /\ dcCellClassName (calculateGeneratorSourceFault gen t) = ""%string).
Proof.
  split.
  - intros gen t. unfold dcCellClassName, delayedZerosWarningShown,
      calculateGeneratorSourceFault, GeneratorSource.result. cbn.
    unfold GeneratorSource.currentZerosSkipped.
    destruct (gtb (Number_toFixed2 (GeneratorSource.dcPercent gen t)) 100)
      eqn:Hred; [intros _ | discriminate].
    apply gtb_true_iff in Hred. apply gtb_true_iff.
    destruct (Rle_lt_dec (GeneratorSource.dcPercent gen t) 100) as [Hle | Hgt];
      [exfalso | assumption].
    apply Number_toFixed2_mono in Hle.
    rewrite (Number_toFixed2_eval 100 10000) in Hle; lra.
  - exists genData0, (- 0.001).
    pose proof gen0_dcPercent_just_above_100 as [Hlo Hhi].
    assert (Hround : Number_toFixed2 (GeneratorSource.dcPercent genData0 (- 0.001))
                     = 100).
    { rewrite (Number_toFixed2_eval _ 10000); lra. }
    unfold dcCellClassName, delayedZerosWarningShown,
      calculateGeneratorSourceFault, GeneratorSource.result. cbn.
    unfold GeneratorSource.currentZerosSkipped. rewrite Hround.
    split; [now apply gtb_true_iff | split; [reflexivity |]].
    rewrite (proj2 (gtb_false_iff 100 100)); [reflexivity | lra].
Qed.

Lemma gen0_tauMs_upper : GeneratorSource.tauMs genData0 <= 84.
Proof.
  rewrite gen_tauMs_xr.
  - simpl. pose proof PI2_3_2 as H3.
    assert (Hw : / (2 * PI * 60) <= / 360)
      by (apply Rinv_le_contravar; lra).
    unfold Rdiv. lra.
  - rewrite gen0_xdDoublePrimeOhms. lra.
  - simpl. lra.
Qed.

Lemma gen0_dcPercent_at_minus_50 :
  150 <= GeneratorSource.dcPercent genData0 (- 50).
Proof.
  unfold GeneratorSource.dcPercent.
  pose proof gen0_tauMs_bounds as Hlo. pose proof gen0_tauMs_upper as Hhi.
  set (tau := GeneratorSource.tauMs genData0) in *.
  assert (Hx : 0.5 <= - - 50 / tau).
  { replace (- - 50 / tau) with (50 / tau) by (unfold Rdiv; lra).
    apply Rle_div_of_mult; lra. }
  pose proof (exp_ineq1_le (- - 50 / tau)). lra.
Qed.

Lemma red_dc_cell_implies_warning_witness :
  delayedZerosWarningShown (calculateGeneratorSourceFault genData0 (- 50))
  = true.
Proof.
  apply (proj1 red_dc_cell_implies_warning).
  unfold dcCellClassName, calculateGeneratorSourceFault,
    GeneratorSource.result. cbn.
  assert (Hred : 100 < Number_toFixed2 (GeneratorSource.dcPercent genData0 (- 50))).
  { pose proof (Number_toFixed2_mono _ _ gen0_dcPercent_at_minus_50) as H.
    rewrite (Number_toFixed2_eval 150 15000) in H; lra. }
  rewrite (proj2 (gtb_true_iff _ _) Hred). reflexivity.
Defined.

End Breakdown.

(** ** More on the rating selection *)

Section SelectionRange.

Lemma stdBreakKA_bounds (k : R) : In k stdBreakKA -> 31.5 <= k <= 200.
Proof.
  unfold stdBreakKA. simpl. intros H.
  repeat (destruct H as [<- | H]; [lra |]). contradiction.
Qed.

(** X10. The selected symmetrical rating always lies between 31.5 and 200 kA,
    and it covers the margin-applied current exactly when that current is
    at most 200 kA: beyond 200 kA the selection is 200 kA and falls short.
    The derived asymmetrical and peak ratings lie between 1.732 and 2.74
    times those bounds. *)
Theorem selection_covers_iff
  (genData : GeneratorData.t) (sysResult genResult : CalculationResult.t)
  (marginPercent : R) :
  let r := ratings genData sysResult genResult marginPercent in
  31.5 <= RatingRow.selected (Ratings.sym r) <= 200
  /\ (RatingRow.margin (Ratings.sym r) <= RatingRow.selected (Ratings.sym r)
      <-> RatingRow.margin (Ratings.sym r) <= 200)
  /\ (200 < RatingRow.margin (Ratings.sym r) ->
      RatingRow.selected (Ratings.sym r) = 200)
  /\ 54.558 <= RatingRow.selected (Ratings.asym r) <= 346.4
  /\ 86.31 <= RatingRow.selected (Ratings.peak r) <= 548.
Proof.
  intros r.
  destruct (selectedSymKA_spec genData sysResult genResult marginPercent)
    as (Hin & Hsome & Hnone).
  pose proof (stdBreakKA_bounds _ Hin) as [Hlo Hhi].
  unfold r, ratings, RatingSelection.result.
  cbn [Ratings.sym Ratings.asym Ratings.peak RatingRow.margin
       RatingRow.selected].
  unfold RatingSelection.derivedAsymKA, RatingSelection.derivedPeakKA.
  set (m := RatingSelection.marginSymKA sysResult genResult marginPercent) in *.
  set (s := RatingSelection.selectedSymKA sysResult genResult marginPercent)
    in *.
  split; [lra | split; [split | split; [| split; lra]]].
  - lra.
  - intros Hm. apply Hsome. exists 200. split; [exact stdBreakKA_In_200 | lra].
  - intros Hm. apply Hnone. intros k Hk.
    pose proof (stdBreakKA_bounds k Hk). lra.
Qed.

Lemma selection_covers_iff_witness :
  let sysR := CalculationResult.mk System 205 1.4 301.6 205.04 None 205.04
                30.1 false in
  let genR := CalculationResult.mk Generator 27.88 53.35 78.84 34.92 None
                34.92 79.58 false in
  RatingRow.selected (Ratings.sym (ratings genData0 sysR genR marginPercent0))
  = 200.
Proof.
  intros sysR genR.
  destruct (selection_covers_iff genData0 sysR genR marginPercent0)
    as (_ & _ & H & _).
  apply H. unfold ratings, RatingSelection.result.
  cbn [Ratings.sym RatingRow.margin].
  unfold RatingSelection.marginSymKA, RatingSelection.maxSymKA,
    RatingSelection.marginFactor, Math_max, sysR, genR, marginPercent0.
  cbn [CalculationResult.symmetricalCurrentkA].
  rewrite Rmax_left by lra. lra.
Defined.

(** X11. A larger margin-applied current never selects a smaller rating, for
    the symmetrical rating and for the continuous current. *)
Theorem selection_monotone
  (genData genData' : GeneratorData.t)
  (sysResult genResult sysResult' genResult' : CalculationResult.t)
  (marginPercent marginPercent' : R) :
  let r := ratings genData sysResult genResult marginPercent in
  let r' := ratings genData' sysResult' genResult' marginPercent' in
  (RatingRow.margin (Ratings.sym r) <= RatingRow.margin (Ratings.sym r') ->
   RatingRow.selected (Ratings.sym r) <= RatingRow.selected (Ratings.sym r'))
  /\ (RatingRow.margin (Ratings.continuous r)
      <= RatingRow.margin (Ratings.continuous r') ->
      RatingRow.selected (Ratings.continuous r)
      <= RatingRow.selected (Ratings.continuous r')).
Proof.
  intros r r'.
  destruct (selectedSymKA_spec genData sysResult genResult marginPercent)
    as (Hin & Hsome & Hnone).
  destruct (selectedSymKA_spec genData' sysResult' genResult' marginPercent')
    as (Hin' & Hsome' & Hnone').
  unfold r, r', ratings, RatingSelection.result.
  cbn [Ratings.sym Ratings.continuous RatingRow.margin RatingRow.selected].
  split.
  - intros Hm.
    set (m := RatingSelection.marginSymKA sysResult genResult marginPercent)
      in *.
    set (m' := RatingSelection.marginSymKA sysResult' genResult' marginPercent')
      in *.
    pose proof (stdBreakKA_bounds _ Hin) as [_ Hhi].
    destruct (Rle_lt_dec m' 200) as [Hle | Hgt].
    + destruct Hsome' as [Hms' _];
        [exists 200; split; [exact stdBreakKA_In_200 | exact Hle] |].
      destruct Hsome as [_ Hmin];
        [exists 200; split; [exact stdBreakKA_In_200 | lra] |].
      apply Hmin; [exact Hin' | lra].
    + rewrite (Hnone' ltac:(intros k Hk;
                              pose proof (stdBreakKA_bounds k Hk); lra)).
      exact Hhi.
  - intros Hm. unfold RatingSelection.selectedCurrentA, Math_ceil.
    apply Rmult_le_compat_r; [lra |]. apply IZR_le, Zceil_le. lra.
Qed.

Lemma selection_monotone_witness :
  let sysR := CalculationResult.mk System 45 1.4 66.2 45.01 None 45.01 30.1
                false in
  let genR := CalculationResult.mk Generator 27.88 53.35 78.84 34.92 None
                34.92 79.58 false in
  RatingRow.selected (Ratings.sym (ratings genData0 sysR genR 0))
  <= RatingRow.selected (Ratings.sym (ratings genData0 sysR genR 10)).
Proof.
  intros sysR genR.
  apply (proj1 (selection_monotone genData0 genData0 sysR genR sysR genR 0 10)).
  unfold ratings, RatingSelection.result.
  cbn [Ratings.sym RatingRow.margin].
  unfold RatingSelection.marginSymKA, RatingSelection.maxSymKA,
    RatingSelection.marginFactor, Math_max, sysR, genR.
  cbn [CalculationResult.symmetricalCurrentkA].
  rewrite Rmax_left by lra. lra.
Defined.

(** X12. The selected continuous-current rating exceeds the margin-applied
    current by less than one 500 A step, and a margin-applied current that
    is itself a multiple of 500 A is selected as it is. *)
Theorem continuous_rating_within_one_step
  (genData : GeneratorData.t) (sysResult genResult : CalculationResult.t)
  (marginPercent : R) :
  let c := Ratings.continuous
             (ratings genData sysResult genResult marginPercent) in
  RatingRow.margin c <= RatingRow.selected c < RatingRow.margin c + 500
  /\ (forall n : Z, RatingRow.margin c = IZR n * 500 ->
      RatingRow.selected c = RatingRow.margin c).
Proof.
  intros c. unfold c, ratings, RatingSelection.result.
  cbn [Ratings.continuous RatingRow.margin RatingRow.selected].
  unfold RatingSelection.selectedCurrentA, Math_ceil.
  set (m := RatingSelection.marginContinuousA genData marginPercent).
  destruct (Zceil_bound (m / 500)) as [Hlo Hhi].
  split; [lra |].
  intros n Hn. rewrite (Zceil_eq n); [lra |]. rewrite Hn.
  replace (IZR n * 500 / 500) with (IZR n) by field. lra.
Qed.

Lemma continuous_rating_within_one_step_witness :
  let gen := GeneratorData.mk 100 (100 / sqrt 3) 0.85 15 30 in
  let sysR := CalculationResult.mk System 45 1.4 66.2 45.01 None 45.01 30.1
                false in
  let genR := CalculationResult.mk Generator 27.88 53.35 78.84 34.92 None
                34.92 79.58 false in
  RatingRow.selected (Ratings.continuous (ratings gen sysR genR 0)) = 1000.
Proof.
  intros gen sysR genR.
  assert (Hm : RatingRow.margin (Ratings.continuous (ratings gen sysR genR 0))
               = IZR 2 * 500).
  { unfold ratings, RatingSelection.result.
    cbn [Ratings.continuous RatingRow.margin].
    unfold RatingSelection.marginContinuousA, RatingSelection.marginFactor,
      RatingSelection.continuousCurrentA, gen.
    cbn [GeneratorData.mva GeneratorData.voltageKv].
    pose proof sqrt3_bounds as [Hs _]. field. lra. }
  destruct (continuous_rating_within_one_step gen sysR genR 0) as (_ & H).
  rewrite (H 2%Z Hm), Hm. lra.
Defined.

End SelectionRange.

(** ** The waveform sampler at any frequency *)

Section SamplerGeneral.

Lemma INR_Z_to_nat (z : Z) : (0 <= z)%Z -> INR (Z.to_nat z) = IZR z.
Proof. intros Hz. rewrite INR_IZR_INZ, Z2Nat.id; [reflexivity | assumption]. Qed.

Lemma waveform_run (iSym tauMs freq : R) (fuel : nat) :
  0 <= Waveform.totalTime freq ->
  let n := S (Z.to_nat (Zfloor (Waveform.totalTime freq))) in
  (n < fuel)%nat ->
  Waveform.loop iSym tauMs freq fuel 0 []
  = Some (map (fun i => Waveform.sample iSym tauMs freq (INR i)) (seq 0 n)).
Proof.
  intros HT n Hfuel.
  destruct (Zfloor_bound (Waveform.totalTime freq)) as [Hlo Hhi].
  assert (Hz : (0 <= Zfloor (Waveform.totalTime freq))%Z)
    by (apply Zfloor_lub; exact HT).
  pose proof (INR_Z_to_nat _ Hz) as Hn.
  change 0 with (INR 0) at 1.
  rewrite (loop_pushes iSym tauMs freq n 0 fuel []);
    [reflexivity | assumption | |].
  - intros i Hi. simpl (0 + i)%nat.
    assert (Hle : INR i <= INR (Z.to_nat (Zfloor (Waveform.totalTime freq))))
      by (apply le_INR; unfold n in Hi; lia).
    lra.
  - simpl (0 + n)%nat. unfold n. rewrite S_INR. lra.
Qed.

Lemma totalTime_pos (freq : R) : 0 < freq -> 0 < Waveform.totalTime freq.
Proof.
  intros Hf. unfold Waveform.totalTime.
  apply Rmult_lt_0_compat; [lra |]. apply Rdiv_lt_0_compat; lra.
Qed.

Lemma totalTime_neg (freq : R) : freq < 0 -> Waveform.totalTime freq < 0.
Proof.
  intros Hf. unfold Waveform.totalTime, Rdiv.
  assert (0 < / - freq) by (apply Rinv_0_lt_compat; lra).
  rewrite <- (Ropp_involutive freq), Rinv_opp. lra.
Qed.

(** X13. At a positive frequency, and with fuel for all its tests, the sampler
    returns [floor (5 * (1000 / freq)) + 1] samples, the [i]-th one being
    the sample at [i] ms; left to its default frequency it returns 84
    samples whatever the current and time constant; at a negative
    frequency it returns no sample at all. *)
Theorem waveform_sample_count (iSym tauMs freq : R) (fuel : nat) :
  (0 < freq ->
   let n := S (Z.to_nat (Zfloor (5 * (1000 / freq)))) in
   (n < fuel)%nat ->
   exists data,
     generateWaveformData fuel iSym tauMs (Some freq) = Some data
     /\ length data = n
     /\ forall i, (i < n)%nat ->
          nth_error data i = Some (Waveform.sample iSym tauMs freq (INR i)))
  /\ ((85 <= fuel)%nat ->
      exists data,
        generateWaveformData fuel iSym tauMs None = Some data
        /\ length data = 84%nat
        /\ forall i, (i < 84)%nat ->
             nth_error data i = Some (Waveform.sample iSym tauMs 60 (INR i)))
  /\ (freq < 0 -> (1 <= fuel)%nat ->
      generateWaveformData fuel iSym tauMs (Some freq) = Some []).
Proof.
  split; [| split].
  - intros Hf n Hfuel.
    exists (map (fun i => Waveform.sample iSym tauMs freq (INR i)) (seq 0 n)).
    split; [| split].
    + unfold generateWaveformData. apply waveform_run; [| exact Hfuel].
      left. now apply totalTime_pos.
    + now rewrite length_map, length_seq.
    + intros i Hi. now apply samples_nth.
  - intros Hfuel.
    exists (map (fun i => Waveform.sample iSym tauMs 60 (INR i)) (seq 0 84)).
    split; [| split].
    + unfold generateWaveformData. now apply waveform_60Hz_run.
    + now rewrite length_map, length_seq.
    + intros i Hi. now apply samples_nth.
  - intros Hf Hfuel. unfold generateWaveformData.
    destruct fuel as [| fuel]; [lia |]. simpl.
    pose proof (totalTime_neg freq Hf) as HT.
    rewrite (proj2 (leb_false_iff 0 (Waveform.totalTime freq)) HT).
    reflexivity.
Qed.

Lemma waveform_sample_count_witness :
  (exists data,
     generateWaveformData 200 20 50 (Some 50) = Some data
     /\ length data = 101%nat)
  /\ generateWaveformData 1 20 50 (Some (- 60)) = Some [].
Proof.
  destruct (waveform_sample_count 20 50 50 200) as (H50 & _ & _).
  destruct (waveform_sample_count 20 50 (- 60) 1) as (_ & _ & Hneg).
  assert (Hfl : Zfloor (5 * (1000 / 50)) = 100%Z) by (apply Zfloor_eq; lra).
  split.
  - destruct H50 as (data & Hrun & Hlen & _); [lra | rewrite Hfl; simpl; lia |].
    exists data. split; [exact Hrun |]. rewrite Hlen, Hfl. reflexivity.
  - apply Hneg; [lra | lia].
Defined.

(** Every element the loop returns was in the list it started from or is
    the sample of a time between the start and the end of the loop. *)
Lemma loop_elements (iSym tauMs freq : R) (fuel : nat) :
  forall (t : R) (data out : list WaveformSample.t),
    Waveform.loop iSym tauMs freq fuel t data = Some out ->
    forall s, In s out ->
      In s data
      \/ exists u, t <= u <= Waveform.totalTime freq
                   /\ s = Waveform.sample iSym tauMs freq u.
Proof.
  induction fuel as [| fuel IH]; intros t data out Hrun s Hs;
    [discriminate |].
  simpl in Hrun. destruct (leb t (Waveform.totalTime freq)) eqn:Hle.
  - apply leb_true_iff in Hle.
    destruct (IH _ _ _ Hrun s Hs) as [Hin | (u & Hu & ->)].
    + apply in_app_or in Hin as [Hin | [<- | []]]; [now left | right].
      exists t. split; [lra | reflexivity].
    + right. exists u. split; [lra | reflexivity].
  - injection Hrun as <-. now left.
Qed.

(** X14. Whatever the current, and for a time constant and a frequency
    other than zero, every sample returned has its time between 0 and five
    periods, its DC term midway between the two envelopes, which are
    [2 * sqrt 2 * iSym] apart, and, when the current is not negative, its
    total between the envelopes. *)
Theorem waveform_within_envelope
  (fuel : nat) (iSym tauMs : R) (freq : option R)
  (data : list WaveformSample.t) (s : WaveformSample.t) :
  tauMs <> 0 ->
  match freq with Some f => f <> 0 | None => True end ->
  generateWaveformData fuel iSym tauMs freq = Some data ->
  In s data ->
  0 <= WaveformSample.time s
       <= 5 * (1000 / match freq with Some f => f | None => 60 end)
  /\ WaveformSample.dc s
     = (WaveformSample.envelopePos s + WaveformSample.envelopeNeg s) / 2
  /\ WaveformSample.envelopePos s - WaveformSample.envelopeNeg s
     = 2 * sqrt 2 * iSym
  /\ WaveformSample.current s
     = WaveformSample.dc s
       + sqrt 2 * iSym
         * sin (2 * PI * match freq with Some f => f | None => 60 end
                * (WaveformSample.time s / 1000))
  /\ (0 <= iSym ->
      WaveformSample.envelopeNeg s <= WaveformSample.current s
      <= WaveformSample.envelopePos s).
Proof.
  unfold generateWaveformData. intros _ _ Hrun Hs.
  destruct (loop_elements _ _ _ _ _ _ _ Hrun s Hs) as [[] | (u & Hu & ->)].
  cbn [Waveform.sample WaveformSample.time WaveformSample.dc
       WaveformSample.current WaveformSample.envelopePos
       WaveformSample.envelopeNeg].
  fold (Waveform.totalTime match freq with Some f => f | None => 60 end).
  split; [exact Hu | split; [lra | split; [lra | split]]].
  - unfold Waveform.omega. lra.
  - intros Hi.
    pose proof (SIN_bound (Waveform.omega match freq with
                                          | Some f => f | None => 60 end
                           * (u / 1000))) as [Hs0 Hs1].
    pose proof sqrt2_bounds as [Hq _].
    assert (Hp : 0 <= sqrt 2 * iSym) by (apply Rmult_le_pos; lra).
    set (a := sqrt 2 * iSym) in *.
    set (w := sin _) in *.
    assert (a * w <= a * 1) by (apply Rmult_le_compat_l; lra).
    assert (a * -1 <= a * w) by (apply Rmult_le_compat_l; lra).
    lra.
Qed.

Lemma sample_3_in_run :
  In (Waveform.sample 20 50 60 (INR 3))
     (map (fun i => Waveform.sample 20 50 60 (INR i)) (seq 0 84)).
Proof.
  apply (in_map (fun i => Waveform.sample 20 50 60 (INR i)) (seq 0 84) 3%nat).
  apply in_seq. lia.
Qed.

Lemma waveform_within_envelope_witness :
  WaveformSample.envelopeNeg (Waveform.sample 20 50 60 (INR 3))
  <= WaveformSample.current (Waveform.sample 20 50 60 (INR 3))
  <= WaveformSample.envelopePos (Waveform.sample 20 50 60 (INR 3)).
Proof.
  assert (H50 : 50 <> 0) by lra. assert (H60 : 60 <> 0) by lra.
  apply (waveform_within_envelope 85 20 50 (Some 60) _ _ H50 H60
           (waveform_60Hz_run 20 50 85 (le_n 85)) sample_3_in_run).
  lra.
Defined.

(** X15. For a positive current and time constant, and a frequency other
    than zero, the DC term of every sample is not negative and at most
    [sqrt 2 * iSym], and it does not grow from a sample to a later one. *)
Theorem waveform_dc_decays
  (fuel : nat) (iSym tauMs : R) (freq : option R)
  (data : list WaveformSample.t) :
  0 < iSym -> 0 < tauMs ->
  match freq with Some f => f <> 0 | None => True end ->
  generateWaveformData fuel iSym tauMs freq = Some data ->
  (forall s, In s data -> 0 <= WaveformSample.dc s <= sqrt 2 * iSym)
  /\ (forall s s', In s data -> In s' data ->
      WaveformSample.time s <= WaveformSample.time s' ->
      WaveformSample.dc s' <= WaveformSample.dc s).
Proof.
  unfold generateWaveformData. intros Hi Htau _ Hrun.
  pose proof sqrt2_bounds as [Hq _].
  assert (Hp : 0 < sqrt 2 * iSym) by (apply Rmult_lt_0_compat; lra).
  pose proof (Rinv_0_lt_compat _ Htau) as Hinv.
  split.
  - intros s Hs.
    destruct (loop_elements _ _ _ _ _ _ _ Hrun s Hs) as [[] | (u & Hu & ->)].
    cbn [Waveform.sample WaveformSample.dc].
    pose proof (exp_pos (- u / tauMs)) as He.
    assert (Hle : exp (- u / tauMs) <= 1).
    { apply exp_le_1. unfold Rdiv.
      assert (0 <= u * / tauMs) by (apply Rmult_le_pos; lra). lra. }
    split; [apply Rmult_le_pos; lra |].
    rewrite <- (Rmult_1_r (sqrt 2 * iSym)) at 2.
    apply Rmult_le_compat_l; lra.
  - intros s s' Hs Hs'.
    destruct (loop_elements _ _ _ _ _ _ _ Hrun s Hs) as [[] | (u & Hu & ->)].
    destruct (loop_elements _ _ _ _ _ _ _ Hrun s' Hs') as [[] | (u' & Hu' & ->)].
    cbn [Waveform.sample WaveformSample.dc WaveformSample.time].
    intros [Hlt | ->]; [| apply Rle_refl].
    apply Rmult_le_compat_l; [lra |].
    left. apply exp_increasing. unfold Rdiv.
    apply Rmult_lt_compat_r; lra.
Qed.

Lemma waveform_dc_decays_witness :
  0 <= WaveformSample.dc (Waveform.sample 20 50 60 (INR 3)) <= sqrt 2 * 20.
Proof.
  assert (H20 : 0 < 20) by lra. assert (H50 : 0 < 50) by lra.
  assert (H60 : 60 <> 0) by lra.
  exact (proj1 (waveform_dc_decays 85 20 50 (Some 60) _ H20 H50 H60
                  (waveform_60Hz_run 20 50 85 (le_n 85)))
               _ sample_3_in_run).
Defined.

End SamplerGeneral.

(** * Saving, listing and loading projects *)

(** ** Strings *)

Section Strings.

Lemma startsWith_nil (s : JSString.t) : JSString.startsWith s [] = true.
Proof. destruct s; reflexivity. Qed.

Lemma startsWith_app (p s : JSString.t) : JSString.startsWith (p ++ s) p = true.
Proof.
  induction p as [| c p IH]; simpl; [apply startsWith_nil |].
  now rewrite N.eqb_refl, IH.
Qed.

Lemma startsWith_inv (s p : JSString.t) :
  JSString.startsWith s p = true -> exists r, s = p ++ r.
Proof.
  revert s. induction p as [| c p IH]; intros s H.
  - now exists s.
  - destruct s as [| d s]; simpl in H; [discriminate |].
    apply andb_prop in H as [Hc Hs]. apply N.eqb_eq in Hc as ->.
    destruct (IH s Hs) as [r ->]. now exists r.
Qed.

Lemma skipn_length_app (p s : JSString.t) : skipn (length p) (p ++ s) = s.
Proof. induction p as [| c p IH]; simpl; [reflexivity | exact IH]. Qed.

Lemma replace_found (pat rep s : JSString.t) :
  JSString.startsWith s pat = true ->
  JSString.replace pat rep s = rep ++ skipn (length pat) s.
Proof.
  intros H. destruct s as [| c s]; cbn [JSString.replace]; rewrite H.
  - now rewrite skipn_nil, app_nil_r.
  - reflexivity.
Qed.

(** Taking the prefix off a string that starts with it. *)
Lemma replace_prefix (p s : JSString.t) : JSString.replace p [] (p ++ s) = s.
Proof.
  rewrite replace_found by apply startsWith_app.
  simpl. apply skipn_length_app.
Qed.

Lemma trimStart_whitespace (s : JSString.t) :
  Forall (fun c => JSString.isWhiteSpace c = true) s ->
  JSString.trimStart s = [].
Proof.
  induction 1 as [| c s Hc _ IH]; simpl; [reflexivity |]. now rewrite Hc.
Qed.

Lemma trimStart_nil_inv (s : JSString.t) :
  JSString.trimStart s = [] ->
  Forall (fun c => JSString.isWhiteSpace c = true) s.
Proof.
  induction s as [| c s IH]; simpl; intros H; [constructor |].
  destruct (JSString.isWhiteSpace c) eqn:Hc; [| discriminate].
  constructor; [assumption | now apply IH].
Qed.

(** [trim] leaves nothing exactly of the strings made of white space. *)
Lemma trim_nil_iff (s : JSString.t) :
  JSString.trim s = []
  <-> Forall (fun c => JSString.isWhiteSpace c = true) s.
Proof.
  unfold JSString.trim. split.
  - intros H.
    assert (H' : JSString.trimStart (rev (JSString.trimStart s)) = [])
      by (apply (f_equal (@rev N)) in H; now rewrite rev_involutive in H).
    apply trimStart_nil_inv in H'.
    destruct (JSString.trimStart s) as [| c r] eqn:E;
      [now apply trimStart_nil_inv |].
    exfalso. apply Forall_rev in H'. rewrite rev_involutive in H'.
    inversion H' as [| ? ? Hc _]; subst.
    assert (Hs : JSString.trimStart s = c :: r) by exact E.
    clear - Hs Hc. induction s as [| d s IH]; simpl in Hs; [discriminate |].
    destruct (JSString.isWhiteSpace d) eqn:Hd; [now apply IH |].
    injection Hs as -> _. congruence.
  - intros H. now rewrite (trimStart_whitespace s H).
Qed.

Lemma ltb_irrefl (a : JSString.t) : JSString.ltb a a = false.
Proof.
  induction a as [| x a IH]; simpl; [reflexivity |].
  now rewrite N.ltb_irrefl.
Qed.

Lemma ltb_asym (a b : JSString.t) :
  JSString.ltb a b = true -> JSString.ltb b a = false.
Proof.
  revert b. induction a as [| x a IH]; intros [| y b]; simpl; try congruence.
  destruct (N.ltb_spec x y) as [Hxy | Hxy];
    destruct (N.ltb_spec y x) as [Hyx | Hyx]; try congruence; try lia.
  apply IH.
Qed.

Lemma insert_sorted (x : JSString.t) (l : list JSString.t) :
  Sorted str_le l -> Sorted str_le (JSString.insert x l).
Proof.
  induction 1 as [| y l Hs IH Hhd]; simpl.
  - repeat constructor.
  - destruct (JSString.ltb x y) eqn:Hxy.
    + constructor; [now constructor |]. constructor. now apply ltb_asym.
    + constructor; [assumption |].
      destruct l as [| z l]; simpl.
      * constructor. exact Hxy.
      * destruct (JSString.ltb x z); constructor;
          [exact Hxy | now inversion Hhd].
Qed.

Lemma sort_sorted (l : list JSString.t) : Sorted str_le (JSString.sort l).
Proof.
  induction l as [| x l IH]; simpl; [constructor | now apply insert_sorted].
Qed.

Lemma insert_In (x y : JSString.t) (l : list JSString.t) :
  In y (JSString.insert x l) <-> y = x \/ In y l.
Proof.
  induction l as [| z l IH]; simpl; [intuition congruence |].
  destruct (JSString.ltb x z); simpl; rewrite ?IH; intuition congruence.
Qed.

Lemma sort_In (y : JSString.t) (l : list JSString.t) :
  In y (JSString.sort l) <-> In y l.
Proof.
  induction l as [| x l IH]; simpl; [reflexivity |].
  rewrite insert_In, IH. intuition congruence.
Qed.

Lemma insert_length (x : JSString.t) (l : list JSString.t) :
  length (JSString.insert x l) = S (length l).
Proof.
  induction l as [| z l IH]; simpl; [reflexivity |].
  destruct (JSString.ltb x z); simpl; [reflexivity | now rewrite IH].
Qed.

Lemma sort_length (l : list JSString.t) : length (JSString.sort l) = length l.
Proof.
  induction l as [| x l IH]; simpl; [reflexivity |].
  now rewrite insert_length, IH.
Qed.

Lemma insert_NoDup (x : JSString.t) (l : list JSString.t) :
  ~ In x l -> NoDup l -> NoDup (JSString.insert x l).
Proof.
  induction l as [| z l IH]; simpl; intros Hx Hl.
  - constructor; [intros [] | constructor].
  - destruct (JSString.ltb x z).
    + constructor; [simpl; exact Hx | exact Hl].
    + inversion Hl as [| ? ? Hz Hl']; subst. constructor.
      * rewrite insert_In. intros [-> | Hin]; [apply Hx; now left | now apply Hz].
      * apply IH; [intros Hin; apply Hx; now right | exact Hl'].
Qed.

Lemma sort_NoDup (l : list JSString.t) : NoDup l -> NoDup (JSString.sort l).
Proof.
  induction 1 as [| x l Hx Hl IH]; simpl; [constructor |].
  apply insert_NoDup; [now rewrite sort_In | exact IH].
Qed.

End Strings.

(** ** The storage *)

Section Storage.

Lemma getItem_setItem_same (ls : LocalStorage.t) (k : JSString.t)
  (v : StoredText) :
  LocalStorage.getItem (LocalStorage.setItem ls k v) k = Some v.
Proof.
  induction ls as [| [k' v'] ls IH]; simpl.
  - destruct (JSString.eq_dec k k); [reflexivity | contradiction].
  - destruct (JSString.eq_dec k k') as [-> | Hne]; simpl.
    + destruct (JSString.eq_dec k' k'); [reflexivity | contradiction].
    + destruct (JSString.eq_dec k k'); [contradiction | exact IH].
Qed.

Lemma getItem_setItem_other (ls : LocalStorage.t) (k k' : JSString.t)
  (v : StoredText) :
  k' <> k ->
  LocalStorage.getItem (LocalStorage.setItem ls k v) k'
  = LocalStorage.getItem ls k'.
Proof.
  intros Hne. induction ls as [| [k0 v0] ls IH]; simpl.
  - destruct (JSString.eq_dec k' k); [contradiction | reflexivity].
  - destruct (JSString.eq_dec k k0) as [-> | Hk]; simpl.
    + destruct (JSString.eq_dec k' k0); [contradiction | reflexivity].
    + destruct (JSString.eq_dec k' k0); [reflexivity | exact IH].
Qed.

Lemma keys_setItem_In (ls : LocalStorage.t) (k k' : JSString.t)
  (v : StoredText) :
  In k' (LocalStorage.keys (LocalStorage.setItem ls k v))
  <-> k' = k \/ In k' (LocalStorage.keys ls).
Proof.
  unfold LocalStorage.keys. induction ls as [| [k0 v0] ls IH]; simpl.
  - intuition congruence.
  - destruct (JSString.eq_dec k k0) as [-> | Hk]; simpl.
    + intuition congruence.
    + rewrite IH. intuition congruence.
Qed.

Lemma keys_setItem_NoDup (ls : LocalStorage.t) (k : JSString.t)
  (v : StoredText) :
  NoDup (LocalStorage.keys ls) ->
  NoDup (LocalStorage.keys (LocalStorage.setItem ls k v)).
Proof.
  induction ls as [| [k0 v0] ls IH]; simpl; intros Hnd.
  - constructor; [intros [] | constructor].
  - inversion Hnd as [| ? ? Hk0 Hnd']; subst.
    destruct (JSString.eq_dec k k0) as [-> | Hk]; simpl.
    + now constructor.
    + constructor; [| now apply IH].
      intros Hin. apply keys_setItem_In in Hin as [-> | Hin];
        [now apply Hk | now apply Hk0].
Qed.

Lemma getItem_None_iff (ls : LocalStorage.t) (k : JSString.t) :
  LocalStorage.getItem ls k = None <-> ~ In k (LocalStorage.keys ls).
Proof.
  induction ls as [| [k0 v0] ls IH]; simpl; [tauto |].
  destruct (JSString.eq_dec k k0) as [-> | Hk].
  - split; [discriminate | intros H; exfalso; apply H; now left].
  - rewrite IH. intuition congruence.
Qed.

Lemma keyPrefix_app_nonempty (n : JSString.t) :
  match App.keyPrefix ++ n with [] => false | _ :: _ => true end = true.
Proof. reflexivity. Qed.

#[local] Opaque App.keyPrefix.

Lemma collectKeys_In (ks acc : list JSString.t) (n : JSString.t) :
  In n (App.collectKeys ks acc) <-> In n acc \/ In (App.keyPrefix ++ n) ks.
Proof.
  revert acc. induction ks as [| key ks IH]; intros acc; simpl; [tauto |].
  destruct (match key with [] => false | _ :: _ => true end
            && JSString.startsWith key App.keyPrefix) eqn:Hk.
  - apply andb_prop in Hk as [_ Hs].
    destruct (startsWith_inv _ _ Hs) as [r ->].
    rewrite replace_prefix, IH, in_app_iff. simpl.
    split.
    + intros [[Hin | [<- | []]] | Hin]; auto.
    + intros [Hin | [Heq | Hin]]; auto.
      apply app_inv_head in Heq as ->. left. right. now left.
  - rewrite IH. split; [tauto |].
    intros [Hin | [Heq | Hin]]; auto.
    exfalso. rewrite Heq, keyPrefix_app_nonempty, startsWith_app in Hk.
    discriminate.
Qed.

Lemma collectKeys_NoDup (ks acc : list JSString.t) :
  NoDup ks -> NoDup acc ->
  (forall n, In n acc -> ~ In (App.keyPrefix ++ n) ks) ->
  NoDup (App.collectKeys ks acc).
Proof.
  revert acc. induction ks as [| key ks IH]; intros acc Hks Hacc Hsep; simpl;
    [assumption |].
  inversion Hks as [| ? ? Hkey Hks']; subst.
  destruct (match key with [] => false | _ :: _ => true end
            && JSString.startsWith key App.keyPrefix) eqn:Hk.
  - apply andb_prop in Hk as [_ Hs].
    destruct (startsWith_inv _ _ Hs) as [r ->].
    rewrite replace_prefix. apply IH; [assumption | |].
    + apply NoDup_app; [assumption | constructor; [intros [] | constructor] |].
      intros n Hn [<- | []]. apply (Hsep r Hn). now left.
    + intros n Hn Hin. apply in_app_iff in Hn as [Hn | [<- | []]].
      * apply (Hsep n Hn). now right.
      * now apply Hkey.
  - apply IH; [assumption .. |].
    intros n Hn Hin. apply (Hsep n Hn). now right.
Qed.

Lemma updateSavedProjectsList_In (ls : LocalStorage.t) (n : JSString.t) :
  In n (App.updateSavedProjectsList ls)
  <-> In (App.keyPrefix ++ n) (LocalStorage.keys ls).
Proof.
  unfold App.updateSavedProjectsList. rewrite sort_In, collectKeys_In.
  simpl. tauto.
Qed.

End Storage.

(** ** The handlers *)

Section Handlers.

(** X16. The list [updateSavedProjectsList] computes is in ascending order,
    holds exactly the names [n] for which [gcb_proj_n] is a key of the
    storage, and holds each once when the keys are distinct. *)
Theorem saved_projects_list (ls : LocalStorage.t) :
  Sorted str_le (App.updateSavedProjectsList ls)
  /\ (forall n, In n (App.updateSavedProjectsList ls)
                <-> In (App.keyPrefix ++ n) (LocalStorage.keys ls))
  /\ (NoDup (LocalStorage.keys ls) -> NoDup (App.updateSavedProjectsList ls)).
Proof.
  split; [apply sort_sorted | split].
  - apply updateSavedProjectsList_In.
  - intros Hnd. unfold App.updateSavedProjectsList.
    apply sort_NoDup, collectKeys_NoDup;
      [assumption | constructor | intros n []].
Qed.

Lemma storage0_keys_NoDup : NoDup (LocalStorage.keys storage0).
Proof.
  unfold storage0, LocalStorage.keys. simpl.
  repeat (constructor; [simpl; intuition discriminate |]). constructor.
Qed.

Lemma saved_projects_list_witness :
  NoDup (App.updateSavedProjectsList storage0).
Proof.
  apply (proj2 (proj2 (saved_projects_list storage0))).
  exact storage0_keys_NoDup.
Defined.

Lemma trim_nonempty_inv (s : JSString.t) : JSString.trim s <> [] -> s <> [].
Proof. intros H ->. now apply H. Qed.

(** X17. A project saved under a name that is not blank is read back by
    [handleLoadProject] under that name, whatever the form holds by then:
    the six inputs are those of the moment of the save, the project name is
    the saved one, the assessment is cleared and nothing is reported; so
    the two fault results computed from the loaded inputs are those
    computed at the save. *)
Theorem save_then_load_restores
  (now : R) (st st2 : App.State) (ls : LocalStorage.t) :
  JSString.trim (App.projectName st) <> [] ->
  let saved := App.handleSaveProject now false st ls in
  let loaded := App.handleLoadProject (App.projectName st) st2
                  (snd (fst saved)) in
  snd saved = [App.SavedSuccessfully (App.projectName st)]
  /\ snd loaded = []
  /\ App.projectName (fst loaded) = App.projectName st
  /\ App.genData (fst loaded) = App.genData st
  /\ App.gsuData (fst loaded) = App.gsuData st
  /\ App.uatData (fst loaded) = App.uatData st
  /\ App.sysData (fst loaded) = App.sysData st
  /\ App.partingTime (fst loaded) = App.partingTime st
  /\ App.marginPercent (fst loaded) = App.marginPercent st
  /\ App.aiAssessment (fst loaded) = []
  /\ App.savedProjects (fst loaded) = App.savedProjects st2
  /\ calculateSystemSourceFault (App.genData (fst loaded))
       (App.gsuData (fst loaded)) (App.sysData (fst loaded))
       (App.partingTime (fst loaded))
     = calculateSystemSourceFault (App.genData st) (App.gsuData st)
         (App.sysData st) (App.partingTime st)
  /\ calculateGeneratorSourceFault (App.genData (fst loaded))
       (App.partingTime (fst loaded))
     = calculateGeneratorSourceFault (App.genData st) (App.partingTime st).
Proof.
  intros Hname saved loaded.
  pose proof (trim_nonempty_inv _ Hname) as Hne.
  unfold loaded, saved, App.handleSaveProject.
  destruct (JSString.trim (App.projectName st)) as [| c r] eqn:Etrim;
    [contradiction |].
  cbn [fst snd]. unfold App.handleLoadProject.
  destruct (App.projectName st) as [| d n] eqn:Ename; [contradiction |].
  rewrite getItem_setItem_same.
  cbn. repeat split; reflexivity.
Qed.

Lemma state0_name_not_blank : JSString.trim (App.projectName state0) <> [].
Proof. vm_compute. discriminate. Qed.

Lemma save_then_load_restores_witness :
  App.genData
    (fst (App.handleLoadProject (App.projectName state0)
            (App.mkState [] [] genDataNeg gsuDataNeg uatData0 sysData0 0 0
               [] false false)
            (snd (fst (App.handleSaveProject 0 false state0 storage0)))))
  = genData0.
Proof.
  destruct (save_then_load_restores 0 state0
              (App.mkState [] [] genDataNeg gsuDataNeg uatData0 sysData0 0 0
                 [] false false)
              storage0 state0_name_not_blank)
    as (_ & _ & _ & H & _).
  exact H.
Defined.

(** X18. A save is refused, with the request for a name, exactly when the
    project name is empty or all white space; a save whose [setItem]
    throws reports the failure; in both cases the form and the storage stay
    as they were. *)
Theorem save_fails_cleanly
  (now : R) (setItemThrows : bool) (st : App.State) (ls : LocalStorage.t) :
  let r := App.handleSaveProject now setItemThrows st ls in
  (Forall (fun c => JSString.isWhiteSpace c = true) (App.projectName st)
   <-> snd r = [App.PleaseEnterName])
  /\ (~ Forall (fun c => JSString.isWhiteSpace c = true) (App.projectName st) ->
      setItemThrows = true -> snd r = [App.FailedToSave])
  /\ (snd r <> [App.SavedSuccessfully (App.projectName st)] ->
      fst r = (st, ls)).
Proof.
  intros r. unfold r, App.handleSaveProject.
  pose proof (trim_nil_iff (App.projectName st)) as Hblank.
  destruct (JSString.trim (App.projectName st)) as [| c t] eqn:Etrim.
  - cbn [fst snd]. split; [| split].
    + split; [reflexivity | intros _; now apply Hblank].
    + intros Hn. exfalso. apply Hn. now apply Hblank.
    + reflexivity.
  - assert (Hnb : ~ Forall (fun c => JSString.isWhiteSpace c = true)
                      (App.projectName st))
      by (intros H; apply Hblank in H; discriminate).
    destruct setItemThrows; cbn [fst snd].
    + split; [split; [contradiction | discriminate] | split];
        [reflexivity | reflexivity].
    + split; [split; [contradiction | discriminate] | split].
      * discriminate.
      * intros H. now exfalso.
Qed.

Lemma save_fails_cleanly_witness :
  snd (App.handleSaveProject 0 false
         (App.setSavedProjects
            (App.mkState (JSString.lit "   ") [] genData0 gsuData0 uatData0
               sysData0 50 10 [] false false) [])
         storage0)
  = [App.PleaseEnterName]
  /\ fst (App.handleSaveProject 0 true state0 storage0) = (state0, storage0).
Proof.
  split.
  - apply (proj1 (save_fails_cleanly 0 false _ storage0)).
    vm_compute. repeat constructor.
  - apply (proj2 (proj2 (save_fails_cleanly 0 true state0 storage0))).
    vm_compute. discriminate.
Defined.

(** X19. A successful save changes the stored item of its own key only, keeps
    distinct keys distinct, leaves the inputs of the form alone, and makes
    the list of saved projects the earlier names together with the saved
    one; loading any other name gives what it gave before the save. *)
Theorem save_keeps_other_projects
  (now : R) (st : App.State) (ls : LocalStorage.t) :
  JSString.trim (App.projectName st) <> [] ->
  let r := App.handleSaveProject now false st ls in
  let st1 := fst (fst r) in
  let ls1 := snd (fst r) in
  LocalStorage.getItem ls1 (App.keyPrefix ++ App.projectName st)
  = Some (JsonProject
            (SavedProject.mk (App.genData st) (App.gsuData st)
               (Some (App.uatData st)) (App.sysData st) (App.partingTime st)
               (App.marginPercent st) now))
  /\ (forall k, k <> App.keyPrefix ++ App.projectName st ->
      LocalStorage.getItem ls1 k = LocalStorage.getItem ls k)
  /\ (NoDup (LocalStorage.keys ls) -> NoDup (LocalStorage.keys ls1))
  /\ (forall n, In n (App.savedProjects st1)
                <-> n = App.projectName st
                    \/ In n (App.updateSavedProjectsList ls))
  /\ st1 = App.setSavedProjects st (App.savedProjects st1)
  /\ (forall other st', other <> App.projectName st ->
      App.handleLoadProject other st' ls1 = App.handleLoadProject other st' ls).
Proof.
  intros Hname r st1 ls1. unfold st1, ls1, r, App.handleSaveProject.
  destruct (JSString.trim (App.projectName st)) as [| c t] eqn:Etrim;
    [contradiction |].
  cbn [fst snd]. split; [apply getItem_setItem_same | split; [| split; [| split; [| split]]]].
  - intros k Hk. now apply getItem_setItem_other.
  - apply keys_setItem_NoDup.
  - intros n. unfold App.setSavedProjects. cbn [App.savedProjects].
    rewrite !updateSavedProjectsList_In, keys_setItem_In.
    split; (intros [H | H]; [left | now right]).
    + now apply app_inv_head in H.
    + now rewrite H.
  - reflexivity.
  - intros other st' Hother. unfold App.handleLoadProject.
    destruct other as [| d o]; [reflexivity |].
    rewrite getItem_setItem_other; [reflexivity |].
    intros Heq. apply app_inv_head in Heq. now apply Hother.
Qed.

Lemma save_keeps_other_projects_witness :
  App.handleLoadProject (JSString.lit "Unit 1") state0
    (snd (fst (App.handleSaveProject 0 false state0 storage0)))
  = App.handleLoadProject (JSString.lit "Unit 1") state0 storage0.
Proof.
  destruct (save_keeps_other_projects 0 state0 storage0 state0_name_not_blank)
    as (_ & _ & _ & _ & _ & H).
  apply H. vm_compute. discriminate.
Defined.

(** X20. Loading never changes the list of saved projects or the two busy
    flags.  An empty selection, or a name whose key [gcb_proj_name] the
    storage does not hold, changes nothing and reports nothing; an item
    that [JSON.parse] rejects changes nothing and reports the failure; a
    project saved without UAT data keeps the UAT data of the form. *)
Theorem load_edge_cases
  (selectedName : JSString.t) (st : App.State) (ls : LocalStorage.t) :
  let r := App.handleLoadProject selectedName st ls in
  (App.savedProjects (fst r) = App.savedProjects st
   /\ App.loadingAi (fst r) = App.loadingAi st
   /\ App.isExporting (fst r) = App.isExporting st)
  /\ (selectedName = []
      \/ ~ In (App.keyPrefix ++ selectedName) (LocalStorage.keys ls) ->
      r = (st, []))
  /\ (LocalStorage.getItem ls (App.keyPrefix ++ selectedName) = Some NotJson ->
      r = (st, [App.FailedToLoad]) \/ (selectedName = [] /\ r = (st, [])))
  /\ (forall data,
      selectedName <> [] ->
      LocalStorage.getItem ls (App.keyPrefix ++ selectedName)
      = Some (JsonProject data) ->
      SavedProject.uatData data = None ->
      App.uatData (fst r) = App.uatData st
      /\ App.genData (fst r) = SavedProject.genData data
      /\ App.projectName (fst r) = selectedName
      /\ snd r = []).
Proof.
  intros r. unfold r, App.handleLoadProject.
  destruct selectedName as [| c n].
  - cbn [fst snd]. split; [auto | split; [reflexivity | split]].
    + intros _. right. split; reflexivity.
    + intros d0 H. now exfalso.
  - destruct (LocalStorage.getItem ls (App.keyPrefix ++ c :: n))
      as [[| | data] |] eqn:Eget; cbn [fst snd].
    + split; [auto | split; [reflexivity | split]].
      * discriminate.
      * intros d0 _ H. discriminate.
    + split; [auto | split; [| split]].
      * intros [H | H]; [discriminate |].
        apply getItem_None_iff in H. congruence.
      * intros _. now left.
      * intros d0 _ H. discriminate.
    + split; [cbn; auto | split; [| split]].
      * intros [H | H]; [discriminate |].
        apply getItem_None_iff in H. congruence.
      * discriminate.
      * intros d0 _ H Hu. injection H as <-.
        cbn. rewrite Hu. auto.
    + split; [auto | split; [reflexivity | split]].
      * discriminate.
      * intros d0 _ H. discriminate.
Qed.

Lemma load_edge_cases_witness :
  App.handleLoadProject (JSString.lit "Unit 3") state0 storage0 = (state0, [])
  /\ App.uatData
       (fst (App.handleLoadProject (JSString.lit "Unit 1") state0 storage0))
     = uatData0.
Proof.
  split.
  - apply (proj1 (proj2 (load_edge_cases (JSString.lit "Unit 3") state0
                          storage0))).
    right. vm_compute. intuition discriminate.
  - destruct (load_edge_cases (JSString.lit "Unit 1") state0 storage0)
      as (_ & _ & _ & H).
    destruct (H (SavedProject.mk genData0 gsuData0 None sysData0 40 5 0))
      as (Hu & _); [vm_compute; discriminate | | reflexivity | exact Hu].
    vm_compute. reflexivity.
Defined.

End Handlers.

(** ** The exported report *)

Section Report.

Ltac decide_code_unit_tests :=
  repeat (match goal with
          | |- context [(?a <=? ?b)%N] =>
              first
                [ replace (a <=? b)%N with true
                    by (symmetry; apply N.leb_le; lia)
                | replace (a <=? b)%N with false
                    by (symmetry; apply N.leb_gt; lia) ]
          | |- context [(?a =? ?b)%N] =>
              first
                [ replace (a =? b)%N with true
                    by (symmetry; apply N.eqb_eq; lia)
                | replace (a =? b)%N with false
                    by (symmetry; apply N.eqb_neq; lia) ]
          end; cbn [andb orb]).

Lemma clean_code_unit (c : N) :
  let f := fun c => if (65 <=? c)%N && (c <=? 90)%N then (c + 32)%N else c in
  let g := fun c => if JSString.isAsciiAlnum c then c else 95%N in
  isCleanCodeUnit (f (g c)) = true /\ f (g (f (g c))) = f (g c).
Proof.
  cbv zeta. unfold JSString.isAsciiAlnum, isCleanCodeUnit.
  assert (Hc : (c < 48 \/ 48 <= c <= 57 \/ 58 <= c <= 64 \/ 65 <= c <= 90
                \/ 91 <= c <= 96 \/ 97 <= c <= 122 \/ 123 <= c)%N) by lia.
  destruct Hc as [H | [H | [H | [H | [H | [H | H]]]]]];
    decide_code_unit_tests; split; reflexivity.
Qed.

(** X21. The name given to the exported file keeps the length of the project
    name, holds lower-case ASCII letters, digits and underscores only, and
    is not changed by cleaning it again; the file name is the clean name
    followed by [_GCB_Sizing_Report.pdf]. *)
Theorem clean_project_name (projectName : JSString.t) :
  length (App.cleanProjectName projectName) = length projectName
  /\ Forall (fun c => isCleanCodeUnit c = true)
       (App.cleanProjectName projectName)
  /\ App.cleanProjectName (App.cleanProjectName projectName)
     = App.cleanProjectName projectName
  /\ App.reportFileName projectName
     = App.cleanProjectName projectName
       ++ JSString.lit "_GCB_Sizing_Report.pdf"
  /\ length (App.reportFileName projectName) = (length projectName + 22)%nat.
Proof.
  unfold App.reportFileName, App.cleanProjectName, JSString.toLowerCase,
    JSString.replaceNonAlnum.
  split; [now rewrite !length_map | split; [| split; [| split]]].
  - rewrite map_map, Forall_forall. intros c Hc.
    apply in_map_iff in Hc as (d & <- & _). apply (clean_code_unit d).
  - rewrite !map_map. apply map_ext. intros c. apply (clean_code_unit c).
  - reflexivity.
  - rewrite length_app, !length_map. reflexivity.
Qed.

Section Pages.
Variables pWidth pHeight imgWidth imgHeight : R.
Let iH := PdfLayout.iHeight pWidth imgWidth imgHeight.

Lemma loop2_run (m : nat) :
  forall (k fuel : nat) (pdf2 : list (list R)),
    (m < fuel)%nat ->
    (forall i, (i < m)%nat -> 0 <= iH - INR (k + i) * pHeight) ->
    iH - INR (k + m) * pHeight < 0 ->
    PdfLayout.loop2 pWidth pHeight imgWidth imgHeight fuel
      (iH - INR k * pHeight) pdf2
    = Some (pdf2 ++ map (fun j => [- INR j * pHeight]) (seq k m)).
Proof.
  induction m as [| m IH]; intros k fuel pdf2 Hfuel Hin Hout.
  - destruct fuel as [| fuel]; [lia |]. simpl.
    rewrite Nat.add_0_r in Hout.
    rewrite (proj2 (geb_false_iff _ _) Hout). now rewrite app_nil_r.
  - destruct fuel as [| fuel]; [lia |]. simpl.
    assert (Hk : 0 <= iH - INR k * pHeight)
      by (specialize (Hin 0%nat); rewrite Nat.add_0_r in Hin; apply Hin; lia).
    rewrite (proj2 (geb_true_iff _ _) Hk).
    replace (iH - INR k * pHeight - pHeight) with (iH - INR (S k) * pHeight)
      by (rewrite S_INR; ring).
    fold iH.
    replace (iH - INR k * pHeight - iH) with (- INR k * pHeight) by ring.
    rewrite (IH (S k) fuel).
    + now rewrite <- app_assoc.
    + lia.
    + intros i Hi. replace (S k + i)%nat with (k + S i)%nat by lia.
      apply Hin. lia.
    + now replace (S k + m)%nat with (k + S m)%nat by lia.
Qed.

Lemma loop1_terminates (m : nat) :
  forall (k fuel : nat) (pdf : list (list R)),
    (m < fuel)%nat ->
    iH - INR (k + m) * pHeight <= 0 ->
    0 < pHeight ->
    exists out,
      PdfLayout.loop1 pWidth pHeight imgWidth imgHeight fuel
        (iH - INR k * pHeight) pdf = Some out.
Proof.
  induction m as [| m IH]; intros k fuel pdf Hfuel Hend Hp.
  - destruct fuel as [| fuel]; [lia |]. simpl.
    rewrite Nat.add_0_r in Hend.
    rewrite (proj2 (gtb_false_iff _ _) Hend). now eexists.
  - destruct fuel as [| fuel]; [lia |]. simpl.
    destruct (gtb (iH - INR k * pHeight) 0); [| now eexists].
    replace (iH - INR k * pHeight - pHeight) with (iH - INR (S k) * pHeight)
      by (rewrite S_INR; ring).
    apply IH; [lia | | assumption].
    now replace (S k + m)%nat with (k + S m)%nat by lia.
Qed.

(** X22. For a positive page height and an image of non-zero width and
    non-negative height, the saved document has
    [floor (iHeight / pHeight) + 1] pages, page [k] (from 0) showing the
    image shifted up by [k] page heights.  When the image fills a whole
    number [m] of pages exactly, there are [m + 1] pages, and on the last
    one the image ends at the top edge of the page. *)
Theorem exported_pages (fuel : nat) :
  imgWidth <> 0 -> 0 < pHeight -> 0 <= iH ->
  let n := Z.to_nat (Zfloor (iH / pHeight)) in
  (S n < fuel)%nat ->
  PdfLayout.savedPages pWidth pHeight imgWidth imgHeight fuel
  = Some (map (fun k => [- INR k * pHeight]) (seq 0 (S n)))
  /\ (forall m : nat, iH = INR m * pHeight ->
      n = m /\ - INR n * pHeight + iH = 0).
Proof.
  intros _ Hp Hi n Hfuel.
  assert (Hq : 0 <= iH / pHeight)
    by (apply Rmult_le_pos; [assumption | left; now apply Rinv_0_lt_compat]).
  destruct (Zfloor_bound (iH / pHeight)) as [Hlo Hhi].
  assert (Hz : (0 <= Zfloor (iH / pHeight))%Z) by (apply Zfloor_lub; exact Hq).
  assert (Hn : INR n = IZR (Zfloor (iH / pHeight)))
    by (unfold n; now apply INR_Z_to_nat).
  assert (Hmul : iH / pHeight * pHeight = iH) by (field; lra).
  assert (Hbelow : forall j : nat, (j <= n)%nat -> 0 <= iH - INR j * pHeight).
  { intros j Hj. apply le_INR in Hj.
    assert (INR j * pHeight <= iH / pHeight * pHeight)
      by (apply Rmult_le_compat_r; lra).
    lra. }
  assert (Habove : iH - INR (S n) * pHeight < 0).
  { rewrite S_INR.
    assert (iH / pHeight * pHeight < (INR n + 1) * pHeight)
      by (apply Rmult_lt_compat_r; lra).
    lra. }
  split.
  - unfold PdfLayout.savedPages. fold iH.
    replace (iH - pHeight) with (iH - INR 1 * pHeight) by (simpl; ring).
    destruct (loop1_terminates n 1 fuel [[0]]) as [out ->];
      [lia | simpl (1 + n)%nat; lra | assumption |].
    rewrite (loop2_run n 1 fuel); [| lia | |].
    + simpl. do 2 f_equal. f_equal. ring.
    + intros i Hlt. apply Hbelow. lia.
    + exact Habove.
  - intros m Hm.
    assert (Hqm : iH / pHeight = INR m) by (rewrite Hm; field; lra).
    assert (Hnm : n = m).
    { unfold n. rewrite Hqm, INR_IZR_INZ, ZfloorZ. apply Nat2Z.id. }
    split; [exact Hnm | rewrite Hnm, Hm; ring].
Qed.

End Pages.

Lemma exported_pages_witness :
  PdfLayout.savedPages 210 297 1000 2000 5
  = Some (map (fun k => [- INR k * 297]) (seq 0 2)).
Proof.
  assert (Hfl : Zfloor (PdfLayout.iHeight 210 1000 2000 / 297) = 1%Z)
    by (apply Zfloor_eq; unfold PdfLayout.iHeight; lra).
  destruct (exported_pages 210 297 1000 2000 5) as [H _].
  - lra.
  - lra.
  - unfold PdfLayout.iHeight. lra.
  - rewrite Hfl. simpl. lia.
  - rewrite Hfl in H. exact H.
Defined.

End Report.
